(** * The FoundationDB Node.js binding: transaction layer and start-up guard

    A shallow embedding of [src/Transaction.cpp] (the value marshaler
    [StringParams], the decode functions handed to the future bridge, the
    synchronous and asynchronous transaction verbs and the [Watch] handle)
    and of the network start-up guard of [lib/index.ts].

    Memory is block based: a pointer is a block and a byte offset, the heap
    maps live blocks to their bytes.  The C++ code runs in a state-and-failure
    monad over the heap; [None] stands for a run with no defined result (an
    aborted process, a read outside a live block).  The native client
    library and the parts of the host that the code only calls are
    interfaces ([Host], [FdbC]). *)

From Stdlib Require Import ZArith Lia Bool.
From stdpp Require Import base gmap list strings.

Local Open Scope Z_scope.

(** ** A state and failure monad *)

Definition M (S A : Type) : Type := S -> option (A * S).

Global Instance M_ret {S} : MRet (M S) := fun A a s => Some (a, s).

Global Instance M_bind {S} : MBind (M S) := fun A B f m s =>
  match m s with
  | Some (a, s') => f a s'
  | None => None
  end.

Definition fail {S A} : M S A := fun _ => None.

(** ** Machine integers *)

Definition INT_MAX : Z := 2 ^ 31 - 1.

(** Conversion to [uint32_t] and to [int]: reduction modulo [2^32]. *)
Definition to_uint32 (x : Z) : Z := x mod 2 ^ 32.

Definition to_int32 (x : Z) : Z := (x + 2 ^ 31) mod 2 ^ 32 - 2 ^ 31.

(** The value of [(double)v] for a 64-bit integer [v]: the binary64 number
    nearest to [v], ties to the even significand.  Every such number is an
    integer, so the result is given as the integer it denotes. *)
Definition int64_to_double (v : Z) : Z :=
  let a := Z.abs v in
  if a <? 2 ^ 53 then v
  else
    let e := Z.log2 a - 52 in
    let q := Z.shiftr a e in
    let r := a - Z.shiftl q e in
    let half := 2 ^ (e - 1) in
    let q' := if (half <? r) || ((r =? half) && Z.odd q) then q + 1 else q in
    Z.sgn v * Z.shiftl q' e.

(** ** Memory *)

Definition ptr : Type := positive * Z.

Abbreviation heap := (gmap positive (list Z)).

(** The [n] bytes at [p], when they all lie in a live block. *)
Definition load (h : heap) (p : ptr) (n : Z) : option (list Z) :=
  match h !! p.1 with
  | Some bs =>
      if decide (0 ≤ p.2 ∧ 0 ≤ n ∧ p.2 + n ≤ Z.of_nat (length bs))
      then Some (take (Z.to_nat n) (drop (Z.to_nat p.2) bs))
      else None
  | None => None
  end.

(** Overwrite the bytes at [p] with [bs]; none may fall outside the block. *)
Definition store (p : ptr) (bs : list Z) : M heap unit := fun h =>
  match h !! p.1 with
  | Some old =>
      if decide (0 ≤ p.2 ∧ p.2 + Z.of_nat (length bs) ≤ Z.of_nat (length old))
      then Some (tt, <[p.1 := take (Z.to_nat p.2) old ++ bs
                              ++ drop (Z.to_nat p.2 + length bs)%nat old]> h)
      else None
  | None => None
  end.

(** A new block holding [init]; the pointer is to its first byte. *)
Definition alloc (init : list Z) : M heap ptr := fun h =>
  let b := fresh (dom h) in Some ((b, 0), <[b := init]> h).

(** [delete[] p]: the block of [p] is gone. *)
Definition free (p : ptr) : M heap unit := fun h =>
  match h !! p.1 with
  | Some _ => if decide (p.2 = 0) then Some (tt, delete p.1 h) else None
  | None => None
  end.

(** ** Host values *)

(** The values of the host that the binding takes and makes.  A string is
    its UTF-16 code units; a [Buffer] is a view (data pointer, byte length)
    of memory; a number is the integer that the double denotes (the binding
    only makes integral ones); an object is its properties in insertion
    order. *)
#[warning="-register-all"]
Inductive JsValue : Type :=
| JsUndefined
| JsNull
| JsBoolean (b : bool)
| JsNumber (n : Z)
| JsString (s : list Z)
| JsBuffer (data : ptr) (length : Z)
| JsArray (elems : list JsValue)
| JsObject (props : list (string * JsValue))
| JsFunction (id : positive)
| JsFdbError (code : Z).

(** [Array::New(isolate, length)]: [length] holes, which read as undefined. *)
Definition Array_New (length : Z) : list JsValue :=
  replicate (Z.to_nat length) JsUndefined.

(** [array->Set(index, value)]: an index past the end extends the array. *)
Definition Array_Set (index : Z) (value : JsValue) (a : list JsValue)
  : list JsValue :=
  let i := Z.to_nat index in
  if decide (i < length a)%nat then <[i := value]> a
  else a ++ replicate (i - length a) JsUndefined ++ [value].

(** [object->Set(key, value)]: a present key keeps its place. *)
Fixpoint Object_Set (key : string) (value : JsValue)
    (props : list (string * JsValue)) : list (string * JsValue) :=
  match props with
  | [] => [(key, value)]
  | (k, v) :: rest =>
      if decide (k = key) then (k, value) :: rest
      else (k, v) :: Object_Set key value rest
  end.

(** ** UTF-8 *)

Definition is_lead_surrogate (c : Z) : bool := (0xD800 <=? c) && (c <=? 0xDBFF).

Definition is_trail_surrogate (c : Z) : bool := (0xDC00 <=? c) && (c <=? 0xDFFF).

(** The code points of a string of UTF-16 code units: a lead surrogate with
    the trail surrogate after it is one supplementary code point, any other
    code unit stands for itself. *)
Fixpoint utf16_code_points (s : list Z) : list Z :=
  match s with
  | [] => []
  | c :: rest =>
      match rest with
      | d :: rest' =>
          if is_lead_surrogate c && is_trail_surrogate d
          then (0x10000 + (c - 0xD800) * 0x400 + (d - 0xDC00))
                 :: utf16_code_points rest'
          else c :: utf16_code_points rest
      | [] => [c]
      end
  end.

(** The UTF-8 bytes of one code point (RFC 3629 bit layout). *)
Definition utf8_encode_code_point (cp : Z) : list Z :=
  if cp <? 0x80 then [cp]
  else if cp <? 0x800 then
    [Z.lor 0xC0 (Z.shiftr cp 6); Z.lor 0x80 (Z.land cp 0x3F)]
  else if cp <? 0x10000 then
    [Z.lor 0xE0 (Z.shiftr cp 12);
     Z.lor 0x80 (Z.land (Z.shiftr cp 6) 0x3F);
     Z.lor 0x80 (Z.land cp 0x3F)]
  else
    [Z.lor 0xF0 (Z.shiftr cp 18);
     Z.lor 0x80 (Z.land (Z.shiftr cp 12) 0x3F);
     Z.lor 0x80 (Z.land (Z.shiftr cp 6) 0x3F);
     Z.lor 0x80 (Z.land cp 0x3F)].

(** The UTF-8 encoding of a string: its code points, encoded one after the
    other. *)
Definition utf8_encoding (s : list Z) : list Z :=
  flat_map utf8_encode_code_point (utf16_code_points s).

(** The scalar values of a well-formed string of UTF-16 code units; a
    string with a surrogate that is not half of a pair has none, and no
    UTF-8 encoding. *)
Fixpoint utf16_scalar_values (s : list Z) : option (list Z) :=
  match s with
  | [] => Some []
  | c :: rest =>
      if is_lead_surrogate c then
        match rest with
        | d :: rest' =>
            if is_trail_surrogate d
            then cons (0x10000 + (c - 0xD800) * 0x400 + (d - 0xDC00))
                   <$> utf16_scalar_values rest'
            else None
        | [] => None
        end
      else if is_trail_surrogate c then None
      else cons c <$> utf16_scalar_values rest
  end.


(** ** The host's string and buffer primitives *)

(** What the code only calls of the host: the bytes that memory from
    [new[]] happens to hold, and the string made from UTF-8 bytes. *)
Class Host := {
  uninit : nat -> Z;
  String_NewFromUtf8 : list Z -> list Z
}.

(** [String::Utf8Length]: the number of bytes of the UTF-8 form. *)
Definition Utf8Length (s : list Z) : Z := Z.of_nat (length (utf8_encoding s)).

(** The characters [String::WriteUtf8] puts in a buffer of [capacity] bytes:
    whole characters only, as many as fit. *)
Fixpoint utf8_write (cps : list Z) (capacity : Z) : list Z :=
  match cps with
  | [] => []
  | cp :: rest =>
      let bs := utf8_encode_code_point cp in
      if Z.of_nat (length bs) <=? capacity
      then bs ++ utf8_write rest (capacity - Z.of_nat (length bs))
      else []
  end.

(** [String::WriteUtf8(buffer, capacity)] with the default options and a
    capacity that is not negative: the characters that fit, then a
    terminating zero byte when a byte is left.  Returns the number of bytes
    written. *)
Definition WriteUtf8 (s : list Z) (buffer : ptr) (capacity : Z) : M heap Z :=
  let chars := utf8_write (utf16_code_points s) capacity in
  let out := if decide (Z.of_nat (length chars) < capacity)
             then chars ++ [0] else chars in
  _ ← store buffer out;
  mret (Z.of_nat (length out)).

(** The largest buffer [Nan::CopyBuffer] makes. *)
Definition kMaxLength : Z := 0x3fffffff.

(** [Nan::CopyBuffer(data, size).ToLocalChecked()]: a new buffer over a new
    block holding a copy of the [size] bytes at [data].  [size] is a
    [uint32_t]; past [kMaxLength] no buffer is made and the checked
    conversion aborts. *)
Definition CopyBuffer (data : ptr) (size : Z) : M heap JsValue := fun h =>
  if decide (size ≤ kMaxLength) then
    match load h data size with
    | Some bs => (p ← alloc bs; mret (JsBuffer p size)) h
    | None => None
    end
  else None.

(** ** The value marshaler *)

Record StringParams := { owned : bool; str : ptr; len : Z }.

(** [new uint8_t[len]] for an [int len]: a new block of [len] bytes that
    nothing has set; a negative [len] is no size, and the allocation
    fails. *)
Definition new_uint8_array `{host : Host} (len : Z) : M heap ptr :=
  if decide (0 ≤ len) then alloc (map uninit (seq 0 (Z.to_nat len)))
  else fail.

(** The constructor [StringParams(keyVal)].  The field [len] is an [int]:
    the byte count of a string and the length of a buffer are reduced to
    32 bits.  A value that is neither a string nor a buffer fails the
    host's check in [Buffer::Data]. *)
Definition StringParams_ctor `{host : Host} (keyVal : JsValue) : M heap StringParams :=
  match keyVal with
  | JsString s =>
      let len := to_int32 (Utf8Length s) in
      str ← new_uint8_array len;
      _ ← WriteUtf8 s str len;
      mret {| owned := true; str := str; len := len |}
  | JsBuffer data length =>
      mret {| owned := false; str := data; len := to_int32 length |}
  | _ => fail
  end.

(** The destructor [~StringParams()]. *)
Definition StringParams_dtor (p : StringParams) : M heap unit :=
  if owned p then free (str p) else mret tt.

(** The bytes a native call sees through the [(str, len)] pair. *)
Definition view (h : heap) (p : StringParams) : option (list Z) :=
  load h (str p) (len p).

(** ** Completed futures *)

Record FDBKeyValue := {
  key : ptr;
  key_length : Z;
  value : ptr;
  value_length : Z
}.

(** A completed native future, as its accessors answer: each gives its
    error code and what it leaves in its out-parameters.  A pointer to an
    array is the function from index to element. *)
Record FDBFuture := {
  fdb_future_get_error : Z;
  fdb_future_get_value : Z * (Z * ptr * Z);
  fdb_future_get_key : Z * (ptr * Z);
  fdb_future_get_keyvalue_array : Z * ((Z -> FDBKeyValue) * Z * Z);
  fdb_future_get_string_array : Z * ((Z -> ptr) * Z);
  fdb_future_get_version : Z * Z
}.

(** ** The decode functions

    Each returns the host value and the error code it leaves in [*errOut]. *)

Definition ignoreResult (future : FDBFuture) : M heap (JsValue * Z) :=
  let errOut := fdb_future_get_error future in
  mret (JsUndefined, errOut).

Definition getValue (future : FDBFuture) : M heap (JsValue * Z) :=
  let '(errOut, (valuePresent, value, valueLength)) :=
    fdb_future_get_value future in
  if decide (errOut ≠ 0) then mret (JsUndefined, errOut)
  else if decide (valuePresent ≠ 0) then
    b ← CopyBuffer value (to_uint32 valueLength);
    mret (b, errOut)
  else mret (JsNull, errOut).

Definition getKey (future : FDBFuture) : M heap (JsValue * Z) :=
  let '(errOut, (key, keyLength)) := fdb_future_get_key future in
  if decide (errOut ≠ 0) then mret (JsUndefined, errOut)
  else
    b ← CopyBuffer key (to_uint32 keyLength);
    mret (b, errOut).

(** The body of the loop of [getKeyValueList], [n] rounds from index [i]. *)
Fixpoint getKeyValueList_loop (n : nat) (i : Z) (kv : Z -> FDBKeyValue)
    (jsValueArray : list JsValue) : M heap (list JsValue) :=
  match n with
  | O => mret jsValueArray
  | S n' =>
      jsKeyBuffer ← CopyBuffer (key (kv i)) (to_uint32 (key_length (kv i)));
      jsValueBuffer ←
        CopyBuffer (value (kv i)) (to_uint32 (value_length (kv i)));
      let jsKeyValue :=
        Object_Set "value" jsValueBuffer (Object_Set "key" jsKeyBuffer []) in
      getKeyValueList_loop n' (i + 1) kv
        (Array_Set i (JsObject jsKeyValue) jsValueArray)
  end.

Definition getKeyValueList (future : FDBFuture) : M heap (JsValue * Z) :=
  let '(errOut, (kv, len, more)) := fdb_future_get_keyvalue_array future in
  if decide (errOut ≠ 0) then mret (JsUndefined, errOut)
  else
    jsValueArray ← getKeyValueList_loop (Z.to_nat len) 0 kv (Array_New len);
    let returnObj :=
      Object_Set "more" (JsBoolean (negb (more =? 0)))
        (Object_Set "values" (JsArray jsValueArray) []) in
    mret (JsObject returnObj, errOut).

(** [strlen]: the bytes before the first zero byte at [p]. *)
Definition strlen (h : heap) (p : ptr) : option Z :=
  match h !! p.1 with
  | Some bs =>
      if decide (0 ≤ p.2 ≤ Z.of_nat (length bs)) then
        match list_find (λ b, b = 0) (drop (Z.to_nat p.2) bs) with
        | Some (i, _) => Some (Z.of_nat i)
        | None => None
        end
      else None
  | None => None
  end.

(** [Nan::New(s, (int)strlen(s)).ToLocalChecked()]. *)
Definition String_New `{host : Host} (s : ptr) : M heap JsValue := fun h =>
  match strlen h s with
  | Some n =>
      match load h s (to_int32 n) with
      | Some bs => Some (JsString (String_NewFromUtf8 bs), h)
      | None => None
      end
  | None => None
  end.

Fixpoint getStringArray_loop `{host : Host} (n : nat) (i : Z) (strings : Z -> ptr)
    (jsArray : list JsValue) : M heap (list JsValue) :=
  match n with
  | O => mret jsArray
  | S n' =>
      s ← String_New (strings i);
      getStringArray_loop n' (i + 1) strings (Array_Set i s jsArray)
  end.

Definition getStringArray `{host : Host} (future : FDBFuture) : M heap (JsValue * Z) :=
  let '(errOut, (strings, stringCount)) := fdb_future_get_string_array future in
  if decide (errOut ≠ 0) then mret (JsUndefined, errOut)
  else
    jsArray ←
      getStringArray_loop (Z.to_nat stringCount) 0 strings
        (Array_New stringCount);
    mret (JsArray jsArray, errOut).

Definition getVersion (future : FDBFuture) : M heap (JsValue * Z) :=
  let '(errOut, version) := fdb_future_get_version future in
  if decide (errOut ≠ 0) then mret (JsUndefined, errOut)
  else mret (JsNumber (int64_to_double version), errOut).

(** The decode functions that read a result, and the error code each gets
    from its accessor. *)
Inductive Decoder := DValue | DKey | DKeyValueList | DStringList | DVersion.

Definition decode `{host : Host} (d : Decoder) : FDBFuture -> M heap (JsValue * Z) :=
  match d with
  | DValue => getValue
  | DKey => getKey
  | DKeyValueList => getKeyValueList
  | DStringList => getStringArray
  | DVersion => getVersion
  end.

Definition native_error (d : Decoder) (future : FDBFuture) : Z :=
  match d with
  | DValue => (fdb_future_get_value future).1
  | DKey => (fdb_future_get_key future).1
  | DKeyValueList => (fdb_future_get_keyvalue_array future).1
  | DStringList => (fdb_future_get_string_array future).1
  | DVersion => (fdb_future_get_version future).1
  end.

(** ** The native client *)

Definition FDBTransaction : Type := positive.

(** A handle of a native future still in flight ([FDBFuture*]). *)
Definition FDBFuture_ptr : Type := positive.

Inductive FDBConflictRangeType :=
| FDB_CONFLICT_RANGE_TYPE_READ
| FDB_CONFLICT_RANGE_TYPE_WRITE.

(** The entry points of the client library's C interface that the verbs
    below call, and its call for the versionstamp, which none of them makes,
    over a state [N] of the library.  A call may read the heap, where the
    byte buffers it is given lie. *)
Class FdbC (N : Type) := {
  fdb_transaction_get :
    FDBTransaction -> ptr -> Z -> bool -> heap -> N -> FDBFuture_ptr * N;
  fdb_transaction_get_read_version :
    FDBTransaction -> heap -> N -> FDBFuture_ptr * N;
  fdb_transaction_get_versionstamp :
    FDBTransaction -> heap -> N -> FDBFuture_ptr * N;
  fdb_transaction_get_committed_version :
    FDBTransaction -> heap -> N -> (Z * Z) * N;
  fdb_transaction_add_conflict_range :
    FDBTransaction -> ptr -> Z -> ptr -> Z -> FDBConflictRangeType ->
    heap -> N -> Z * N
}.

(** ** The transaction verbs *)

(** The pending operation of the spec: the handle of a native future, the
    continuation, and the decode function for the future's result. *)
Record PendingOperation := {
  po_future : FDBFuture_ptr;
  po_callback : JsValue;
  po_extract : FDBFuture -> M heap (JsValue * Z)
}.

(** Modelled from the spec: [futureToJS] of future.h, which is not among the
    sources.  The spec's [wrap(nativeFuture, decodeFn) -> PendingOperation]:
    the pending operation keeps the future's handle, the continuation and
    the decode function it was given. *)
Definition futureToJS (f : FDBFuture_ptr) (cb : JsValue)
    (extract : FDBFuture -> M heap (JsValue * Z)) : PendingOperation :=
  {| po_future := f; po_callback := cb; po_extract := extract |}.

(** Modelled from the spec: [FdbError::NewInstance] of FdbError.h, which is
    not among the sources.  The typed error of the spec, carrying the native
    numeric code. *)
Definition FdbError_NewInstance (errorCode : Z) : JsValue := JsFdbError errorCode.

(** How a verb comes back to the host: with a return value, with the
    pending result of an asynchronous call, or with an exception thrown at
    the call site. *)
Inductive Returned :=
| Normal (v : JsValue)
| Pending (p : PendingOperation)
| Throw (e : JsValue).

(** [info[i]]: an argument that was not passed is undefined. *)
Definition arg (info : list JsValue) (i : nat) : JsValue :=
  default JsUndefined (info !! i).

(** [v->BooleanValue()]. *)
Definition BooleanValue (v : JsValue) : bool :=
  match v with
  | JsUndefined | JsNull => false
  | JsBoolean b => b
  | JsNumber n => negb (n =? 0)
  | JsString s => negb (bool_decide (s = []))
  | _ => true
  end.

(** A step on the heap alone, and a call into the client library. *)
Definition on_heap {N A} (m : M heap A) : M (heap * N) A := fun w =>
  match m w.1 with
  | Some (a, h') => Some (a, (h', w.2))
  | None => None
  end.

Definition native {N A} (call : heap -> N -> A * N) : M (heap * N) A := fun w =>
  let '(a, n') := call w.1 w.2 in Some (a, (w.1, n')).

Section Verbs.
Context `{host : Host} {N : Type} `{client : FdbC N}.

Definition Transaction_Get (tr : FDBTransaction) (info : list JsValue)
  : M (heap * N) Returned :=
  key ← on_heap (StringParams_ctor (arg info 0));
  let snapshot := BooleanValue (arg info 1) in
  f ← native (fdb_transaction_get tr (str key) (len key) snapshot);
  let r := futureToJS f (arg info 2) getValue in
  _ ← on_heap (StringParams_dtor key);
  mret (Pending r).

Definition Transaction_GetReadVersion (tr : FDBTransaction)
    (info : list JsValue) : M (heap * N) Returned :=
  f ← native (fdb_transaction_get_read_version tr);
  mret (Pending (futureToJS f (arg info 0) getVersion)).

Definition Transaction_GetCommittedVersion (tr : FDBTransaction)
    (info : list JsValue) : M (heap * N) Returned :=
  '(errorCode, version) ← native (fdb_transaction_get_committed_version tr);
  if decide (errorCode ≠ 0) then mret (Throw (FdbError_NewInstance errorCode))
  else mret (Normal (JsNumber (int64_to_double version))).

Definition Transaction_GetVersionStamp (tr : FDBTransaction)
    (info : list JsValue) : M (heap * N) Returned :=
  f ← native (fdb_transaction_get_read_version tr);
  mret (Pending (futureToJS f (arg info 0) getKey)).

Definition Transaction_AddConflictRange (tr : FDBTransaction)
    (info : list JsValue) (type : FDBConflictRangeType)
  : M (heap * N) Returned :=
  start ← on_heap (StringParams_ctor (arg info 0));
  end_ ← on_heap (StringParams_ctor (arg info 1));
  errorCode ←
    native (fdb_transaction_add_conflict_range tr
              (str start) (len start) (str end_) (len end_) type);
  let r := if decide (errorCode ≠ 0)
           then Throw (FdbError_NewInstance errorCode)
           else Normal JsUndefined in
  _ ← on_heap (StringParams_dtor end_);
  _ ← on_heap (StringParams_dtor start);
  mret r.

Definition Transaction_AddReadConflictRange (tr : FDBTransaction)
    (info : list JsValue) : M (heap * N) Returned :=
  Transaction_AddConflictRange tr info FDB_CONFLICT_RANGE_TYPE_READ.

Definition Transaction_AddWriteConflictRange (tr : FDBTransaction)
    (info : list JsValue) : M (heap * N) Returned :=
  Transaction_AddConflictRange tr info FDB_CONFLICT_RANGE_TYPE_WRITE.
End Verbs.

(** The synchronous verbs that can fail natively. *)
Inductive SyncVerb := addReadConflictRange | addWriteConflictRange | getCommittedVersion.

Definition sync_verb `{host : Host} {N} `{client : FdbC N} (v : SyncVerb)
  : FDBTransaction -> list JsValue -> M (heap * N) Returned :=
  match v with
  | addReadConflictRange => Transaction_AddReadConflictRange
  | addWriteConflictRange => Transaction_AddWriteConflictRange
  | getCommittedVersion => Transaction_GetCommittedVersion
  end.

(** The error code the native call of a synchronous verb answers with: the
    arguments marshalled as the verb marshals them, then the call. *)
Definition sync_native_call `{host : Host} {N} `{client : FdbC N} (v : SyncVerb)
    (tr : FDBTransaction) (info : list JsValue) : M (heap * N) Z :=
  let conflict type :=
    start ← on_heap (StringParams_ctor (arg info 0));
    end_ ← on_heap (StringParams_ctor (arg info 1));
    native (fdb_transaction_add_conflict_range tr
              (str start) (len start) (str end_) (len end_) type) in
  match v with
  | addReadConflictRange => conflict FDB_CONFLICT_RANGE_TYPE_READ
  | addWriteConflictRange => conflict FDB_CONFLICT_RANGE_TYPE_WRITE
  | getCommittedVersion =>
      r ← native (fdb_transaction_get_committed_version tr);
      mret r.1
  end.

(** ** The watch handle *)

(** The state of a native future, by the contract of the C interface: it is
    pending until it is ready with an error code (zero for success);
    [fdb_future_cancel] makes a pending future ready with
    [operation_cancelled] and has no effect on a ready one. *)
Inductive FutureStatus := FuturePending | FutureReady (err : Z).

Definition operation_cancelled : Z := 1101.

(** Modelled from the spec: [NodeCallback] of NodeCallback.h, which is not
    among the sources.  The pending operation of the spec: it holds the
    native future's handle ([getFuture], null once the future is released)
    and a reference count. *)
Record NodeCallback := {
  future : option FDBFuture_ptr;
  refCount : Z
}.

(** Modelled from the spec: [getFuture] of NodeCallback.h, which is not
    among the sources.  The handle the callback holds, null once released. *)
Definition getFuture (c : NodeCallback) : option FDBFuture_ptr := future c.

(** The [Watch] object: a pointer to its callback, or null. *)
Record Watch := { callback : option positive }.

(** What a watch shares with the bridge and the client library: the
    callback objects, by address, and the native futures, by handle. *)
Record WatchWorld := {
  callbacks : gmap positive NodeCallback;
  futures : gmap positive FutureStatus
}.

(** [fdb_future_cancel] of the C interface; a handle of a destroyed future
    must not be used. *)
Definition fdb_future_cancel (f : FDBFuture_ptr) : M WatchWorld unit := fun w =>
  match futures w !! f with
  | Some FuturePending =>
      Some (tt, {| callbacks := callbacks w;
                   futures := <[f := FutureReady operation_cancelled]> (futures w) |})
  | Some (FutureReady _) => Some (tt, w)
  | None => None
  end.

(** Modelled from the spec: [addRef] of NodeCallback.h, which is not among
    the sources.  A holder that attaches increments the reference count. *)
Definition addRef (cb : positive) : M WatchWorld unit := fun w =>
  match callbacks w !! cb with
  | Some c =>
      Some (tt, {| callbacks :=
                     <[cb := {| future := future c; refCount := refCount c + 1 |}]>
                       (callbacks w);
                   futures := futures w |})
  | None => None
  end.

(** [Watch::NewInstance(callback)]. *)
Definition Watch_NewInstance (cb : positive) : M WatchWorld Watch :=
  _ ← addRef cb;
  mret {| callback := Some cb |}.

(** [Watch::Cancel]. *)
Definition Watch_Cancel (watch : Watch) : M WatchWorld unit := fun w =>
  match callback watch with
  | Some cb =>
      match callbacks w !! cb with
      | Some c =>
          match getFuture c with
          | Some f => fdb_future_cancel f w
          | None => Some (tt, w)
          end
      | None => None
      end
  | None => Some (tt, w)
  end.

(** The client library completes a pending future by itself. *)
Definition native_completion (f : FDBFuture_ptr) (err : Z) (w : WatchWorld)
  : WatchWorld :=
  match futures w !! f with
  | Some FuturePending =>
      {| callbacks := callbacks w; futures := <[f := FutureReady err]> (futures w) |}
  | _ => w
  end.

(** Modelled from the spec: the end of the bridge's completion (step 4 of
    the spec's Future Bridge), in NodeCallback.h, which is not among the
    sources: the native future is destroyed and the callback lets go of it. *)
Definition release_future (cb : positive) (w : WatchWorld) : WatchWorld :=
  match callbacks w !! cb with
  | Some c =>
      match future c with
      | Some f =>
          {| callbacks := <[cb := {| future := None; refCount := refCount c |}]>
                            (callbacks w);
             futures := delete f (futures w) |}
      | None => w
      end
  | None => w
  end.

(** A watch has completed when its future is ready or already released. *)
Definition watch_completed (watch : Watch) (w : WatchWorld) : bool :=
  match callback watch with
  | Some cb =>
      match callbacks w !! cb with
      | Some c =>
          match getFuture c with
          | Some f =>
              match futures w !! f with
              | Some (FutureReady _) => true
              | _ => false
              end
          | None => true
          end
      | None => false
      end
  | None => false
  end.

(** ** Opening a database (lib/index.ts) *)

Module Index.

Inductive NativeCall :=
| startNetwork
| stopNetwork
| createDatabase
| setNetworkOption (code val : Z).

Global Instance NativeCall_eq_dec : EqDecision NativeCall.
Proof. solve_decision. Defined.

(** The module's state: its guard flag, the calls made to the native
    module so far, and the number of exit handlers registered. *)
Record State := {
  initCalled : bool;
  calls : list NativeCall;
  exit_handlers : nat
}.

(** What the module only calls: the API version that [apiVersion.get()]
    returns, and whether a native call (for [createDatabase], the making
    of the database object around it) throws, each as it stands in the
    current state. *)
Class Env := {
  apiVersion_get : State -> option Z;
  startNetwork_throws : State -> bool;
  createDatabase_throws : State -> bool;
  setNetworkOption_throws : State -> bool
}.

Inductive Outcome := Returns | Throws.

Definition initial : State :=
  {| initCalled := false; calls := []; exit_handlers := 0 |}.

Definition set_initCalled (s : State) : State :=
  {| initCalled := true; calls := calls s; exit_handlers := exit_handlers s |}.

Definition call (c : NativeCall) (s : State) : State :=
  {| initCalled := initCalled s; calls := calls s ++ [c];
     exit_handlers := exit_handlers s |}.

Definition process_on_exit (s : State) : State :=
  {| initCalled := initCalled s; calls := calls s;
     exit_handlers := S (exit_handlers s) |}.

Definition init `{env : Env} (s : State) : State * Outcome :=
  match apiVersion_get s with
  | None => (s, Throws)
  | Some _ =>
      if initCalled s then (s, Returns)
      else
        let s := set_initCalled s in
        if startNetwork_throws s then (call startNetwork s, Throws)
        else (process_on_exit (call startNetwork s), Returns)
  end.

Definition open `{env : Env} (s : State) : State * Outcome :=
  match init s with
  | (s, Throws) => (s, Throws)
  | (s, Returns) =>
      if createDatabase_throws s then (call createDatabase s, Throws)
      else (call createDatabase s, Returns)
  end.

(** [eachOption] of opts.ts is not among the sources: it is taken to call
    back once for each option given, in order. *)
Fixpoint eachOption `{env : Env} (netOpts : list (Z * Z)) (s : State)
  : State * Outcome :=
  match netOpts with
  | [] => (s, Returns)
  | (code, val) :: rest =>
      if setNetworkOption_throws s
      then (call (setNetworkOption code val) s, Throws)
      else eachOption rest (call (setNetworkOption code val) s)
  end.

Definition configNetwork `{env : Env} (netOpts : list (Z * Z)) (s : State)
  : State * Outcome :=
  if initCalled s then (s, Throws) else eachOption netOpts s.

(** The entry points of the module. *)
Inductive Api :=
| Open
| OpenSync
| ClusterOpenDatabase
| ClusterOpenDatabaseSync
| CreateCluster
| CreateClusterSync
| ConfigNetwork (netOpts : list (Z * Z))
| StopNetworkSync.

Definition step `{env : Env} (a : Api) (s : State) : State * Outcome :=
  match a with
  | Open | OpenSync | ClusterOpenDatabase | ClusterOpenDatabaseSync => open s
  | CreateCluster | CreateClusterSync => (s, Returns)
  | ConfigNetwork netOpts => configNetwork netOpts s
  | StopNetworkSync => (call stopNetwork s, Returns)
  end.

Fixpoint run `{env : Env} (l : list Api) (s : State) : State :=
  match l with
  | [] => s
  | a :: l' => run l' (step a s).1
  end.

(** How many times [startNetwork] has been called. *)
Definition started (s : State) : nat :=
  length (filter (λ c, c = startNetwork) (calls s)).

(** The guard and the count of [startNetwork] calls go together. *)
Definition guarded (s : State) : Prop :=
  started s = if initCalled s then 1%nat else 0%nat.

(** An environment in which the API version is set and no call throws. *)
Definition example_env : Env :=
  {| apiVersion_get := λ _, Some 510;
     startNetwork_throws := λ _, false;
     createDatabase_throws := λ _, false;
     setNetworkOption_throws := λ _, false |}.

End Index.

(** ** What the statements speak of *)

(** The bytes a buffer views. *)
Definition buffer_bytes (h : heap) (v : JsValue) : option (list Z) :=
  match v with
  | JsBuffer data length => load h data length
  | _ => None
  end.

(** A native key-value element whose regions hold the bytes [item], each
    of a size that a buffer can have. *)
Definition kv_holds (h : heap) (e : FDBKeyValue) (item : list Z * list Z) : Prop :=
  load h (key e) (key_length e) = Some item.1
  ∧ key_length e ≤ kMaxLength
  ∧ load h (value e) (value_length e) = Some item.2
  ∧ value_length e ≤ kMaxLength.

(** A host [{key, value}] pair of buffers on blocks that were not in [h0],
    holding the bytes [item] in [h]. *)
Definition pair_copies (h0 h : heap) (v : JsValue) (item : list Z * list Z) : Prop :=
  ∃ pk pv,
    v = JsObject [("key"%string, JsBuffer pk (Z.of_nat (length item.1)));
                  ("value"%string, JsBuffer pv (Z.of_nat (length item.2)))]
    ∧ h0 !! pk.1 = None ∧ h0 !! pv.1 = None
    ∧ buffer_bytes h (JsBuffer pk (Z.of_nat (length item.1))) = Some item.1
    ∧ buffer_bytes h (JsBuffer pv (Z.of_nat (length item.2))) = Some item.2.

(** A watch whose callback is live and whose future, when the callback
    still holds one, has not been destroyed. *)
Definition watch_live (watch : Watch) (w : WatchWorld) : bool :=
  match callback watch with
  | Some cb =>
      match callbacks w !! cb with
      | Some c =>
          match getFuture c with
          | Some f => bool_decide (is_Some (futures w !! f))
          | None => true
          end
      | None => false
      end
  | None => true
  end.

(** ** Instances for examples *)

Definition example_host : Host :=
  {| uninit := λ i, 0xCD; String_NewFromUtf8 := λ bs, bs |}.

(** A client whose state is the error code it answers the next synchronous
    call with; its futures are numbered by transaction. *)
Definition example_client : FdbC Z :=
  {| fdb_transaction_get := λ tr _ _ _ _ n, (tr, n);
     fdb_transaction_get_read_version := λ tr _ n, (tr, n);
     fdb_transaction_get_versionstamp := λ tr _ n, (Pos.succ tr, n);
     fdb_transaction_get_committed_version := λ _ _ n, ((n, 7), 0);
     fdb_transaction_add_conflict_range := λ _ _ _ _ _ _ _ n, (n, 0) |}.

(** A heap with one block: the key [k1], a zero byte, the value [v]. *)
Definition example_heap : heap := {[ 1%positive := [0x6B; 0x31; 0; 0x76] ]}.

(** A native array whose first key is [k] and whose other keys are [k1],
    all with the value [v]. *)
Definition example_kv (i : Z) : FDBKeyValue :=
  {| key := (1%positive, 0); key_length := if i =? 0 then 1 else 2;
     value := (1%positive, 3); value_length := 1 |}.

Definition example_items : list (list Z * list Z) :=
  [([0x6B], [0x76]); ([0x6B; 0x31], [0x76])].

(** A completed future over [example_heap] whose accessors all answer with
    [errOut]. *)
Definition example_future (errOut valuePresent version : Z) : FDBFuture :=
  {| fdb_future_get_error := errOut;
     fdb_future_get_value := (errOut, (valuePresent, (1%positive, 3), 1));
     fdb_future_get_key := (errOut, ((1%positive, 0), 2));
     fdb_future_get_keyvalue_array := (errOut, (example_kv, 2, 1));
     fdb_future_get_string_array := (errOut, (λ _, (1%positive, 0), 1));
     fdb_future_get_version := (errOut, version) |}.

(** A watch on future 5 through callback 3, the future still pending. *)
Definition example_watch : Watch := {| callback := Some 3%positive |}.

Definition example_world : WatchWorld :=
  {| callbacks := {[ 3%positive := {| future := Some 5%positive; refCount := 2 |} ]};
     futures := {[ 5%positive := FuturePending ]} |}.

(** ** The other verbs of the transaction *)

(** The host's conversions of a value to a machine integer, which the code
    only calls.  Converting can run script and throw: each conversion gives
    an integer or nothing, and [conversion_exception] is what was thrown
    when it gives nothing.  The script that a conversion runs is taken to
    write no memory and to call no method of the transaction. *)
Class V8Convert := {
  ToInt32 : JsValue -> option Z;
  ToInteger : JsValue -> option Z;
  conversion_exception : JsValue -> JsValue
}.

(** [v->Int32Value()] and [v->IntegerValue()], the conversions without a
    context: when converting throws they return 0 and leave the exception
    scheduled.  The result is the integer and the exception, if any. *)
Definition Int32Value `{conv : V8Convert} (v : JsValue) : Z * option JsValue :=
  match ToInt32 v with
  | Some n => (n, None)
  | None => (0, Some (conversion_exception v))
  end.

Definition IntegerValue `{conv : V8Convert} (v : JsValue) : Z * option JsValue :=
  match ToInteger v with
  | Some n => (n, None)
  | None => (0, Some (conversion_exception v))
  end.

(** The exception scheduled after conversions that were made in the order
    of the list: the one thrown last. *)
Definition scheduled (thrown : list (option JsValue)) : option JsValue :=
  last (omap id thrown).

(** The return of a method to the script: a scheduled exception is thrown
    there, whatever return value the method set. *)
Definition return_to_script (thrown : list (option JsValue)) (r : Returned)
  : Returned :=
  match scheduled thrown with
  | Some e => Throw e
  | None => r
  end.

(** The entry points of the C interface that the verbs below call. *)
Class FdbC_verbs (N : Type) := {
  fdb_transaction_commit : FDBTransaction -> heap -> N -> FDBFuture_ptr * N;
  fdb_transaction_reset : FDBTransaction -> heap -> N -> N;
  fdb_transaction_cancel : FDBTransaction -> heap -> N -> N;
  fdb_transaction_on_error :
    FDBTransaction -> Z -> heap -> N -> FDBFuture_ptr * N;
  fdb_transaction_get_key :
    FDBTransaction -> ptr -> Z -> Z -> Z -> bool -> heap -> N ->
    FDBFuture_ptr * N;
  fdb_transaction_set :
    FDBTransaction -> ptr -> Z -> ptr -> Z -> heap -> N -> N;
  fdb_transaction_clear : FDBTransaction -> ptr -> Z -> heap -> N -> N;
  fdb_transaction_atomic_op :
    FDBTransaction -> ptr -> Z -> ptr -> Z -> Z -> heap -> N -> N;
  fdb_transaction_get_range :
    FDBTransaction -> ptr -> Z -> Z -> Z -> ptr -> Z -> Z -> Z ->
    Z -> Z -> Z -> Z -> bool -> bool -> heap -> N -> FDBFuture_ptr * N;
  fdb_transaction_clear_range :
    FDBTransaction -> ptr -> Z -> ptr -> Z -> heap -> N -> N;
  fdb_transaction_set_read_version : FDBTransaction -> Z -> heap -> N -> N;
  fdb_transaction_get_addresses_for_key :
    FDBTransaction -> ptr -> Z -> heap -> N -> FDBFuture_ptr * N
}.

(** A call into the client library that returns nothing. *)
Definition native_void {N} (call : heap -> N -> N) : M (heap * N) unit := fun w =>
  Some (tt, (w.1, call w.1 w.2)).

Section MoreVerbs.
Context `{host : Host} `{conv : V8Convert} {N : Type}
  `{client : FdbC N} `{verbs : FdbC_verbs N}.

Definition Transaction_Commit (tr : FDBTransaction) (info : list JsValue)
  : M (heap * N) Returned :=
  f ← native (fdb_transaction_commit tr);
  mret (Pending (futureToJS f (arg info 0) ignoreResult)).

Definition Transaction_Reset (tr : FDBTransaction) (info : list JsValue)
  : M (heap * N) Returned :=
  _ ← native_void (fdb_transaction_reset tr);
  mret (Normal JsUndefined).

Definition Transaction_Cancel (tr : FDBTransaction) (info : list JsValue)
  : M (heap * N) Returned :=
  _ ← native_void (fdb_transaction_cancel tr);
  mret (Normal JsUndefined).

Definition Transaction_OnError (tr : FDBTransaction) (info : list JsValue)
  : M (heap * N) Returned :=
  let errorCode := Int32Value (arg info 0) in
  f ← native (fdb_transaction_on_error tr errorCode.1);
  mret (return_to_script [errorCode.2]
          (Pending (futureToJS f (arg info 1) ignoreResult))).

Definition Transaction_GetKey (tr : FDBTransaction) (info : list JsValue)
  : M (heap * N) Returned :=
  key ← on_heap (StringParams_ctor (arg info 0));
  let selectorOrEqual := Int32Value (arg info 1) in
  let selectorOffset := Int32Value (arg info 2) in
  let snapshot := BooleanValue (arg info 3) in
  f ← native (fdb_transaction_get_key tr (str key) (len key)
                selectorOrEqual.1 selectorOffset.1 snapshot);
  let r := futureToJS f (arg info 4) getKey in
  _ ← on_heap (StringParams_dtor key);
  mret (return_to_script [selectorOrEqual.2; selectorOffset.2] (Pending r)).

Definition Transaction_Set (tr : FDBTransaction) (info : list JsValue)
  : M (heap * N) Returned :=
  key ← on_heap (StringParams_ctor (arg info 0));
  val ← on_heap (StringParams_ctor (arg info 1));
  _ ← native_void (fdb_transaction_set tr
                     (str key) (len key) (str val) (len val));
  _ ← on_heap (StringParams_dtor val);
  _ ← on_heap (StringParams_dtor key);
  mret (Normal JsUndefined).

Definition Transaction_Clear (tr : FDBTransaction) (info : list JsValue)
  : M (heap * N) Returned :=
  key ← on_heap (StringParams_ctor (arg info 0));
  _ ← native_void (fdb_transaction_clear tr (str key) (len key));
  _ ← on_heap (StringParams_dtor key);
  mret (Normal JsUndefined).

Definition Transaction_AtomicOp (tr : FDBTransaction) (info : list JsValue)
  : M (heap * N) Returned :=
  key ← on_heap (StringParams_ctor (arg info 0));
  operand ← on_heap (StringParams_ctor (arg info 1));
  let operationType := Int32Value (arg info 2) in
  _ ← native_void (fdb_transaction_atomic_op tr
                     (str key) (len key) (str operand) (len operand)
                     operationType.1);
  _ ← on_heap (StringParams_dtor operand);
  _ ← on_heap (StringParams_dtor key);
  mret (return_to_script [operationType.2] (Normal JsUndefined)).

Definition Transaction_GetRange (tr : FDBTransaction) (info : list JsValue)
  : M (heap * N) Returned :=
  start ← on_heap (StringParams_ctor (arg info 0));
  let startOrEqual := Z.b2z (BooleanValue (arg info 1)) in
  let startOffset := Int32Value (arg info 2) in
  end_ ← on_heap (StringParams_ctor (arg info 3));
  let endOrEqual := Z.b2z (BooleanValue (arg info 4)) in
  let endOffset := Int32Value (arg info 5) in
  let limit := Int32Value (arg info 6) in
  let target_bytes := Int32Value (arg info 7) in
  let mode := Int32Value (arg info 8) in
  let iteration := Int32Value (arg info 9) in
  let snapshot := BooleanValue (arg info 10) in
  let reverse := BooleanValue (arg info 11) in
  f ← native (fdb_transaction_get_range tr
                (str start) (len start) startOrEqual startOffset.1
                (str end_) (len end_) endOrEqual endOffset.1
                limit.1 target_bytes.1 mode.1 iteration.1 snapshot reverse);
  let r := futureToJS f (arg info 12) getKeyValueList in
  _ ← on_heap (StringParams_dtor end_);
  _ ← on_heap (StringParams_dtor start);
  mret (return_to_script
          [startOffset.2; endOffset.2; limit.2; target_bytes.2; mode.2;
           iteration.2]
          (Pending r)).

Definition Transaction_ClearRange (tr : FDBTransaction) (info : list JsValue)
  : M (heap * N) Returned :=
  begin ← on_heap (StringParams_ctor (arg info 0));
  end_ ← on_heap (StringParams_ctor (arg info 1));
  _ ← native_void (fdb_transaction_clear_range tr
                     (str begin) (len begin) (str end_) (len end_));
  _ ← on_heap (StringParams_dtor end_);
  _ ← on_heap (StringParams_dtor begin);
  mret (Normal JsUndefined).

Definition Transaction_SetReadVersion (tr : FDBTransaction)
    (info : list JsValue) : M (heap * N) Returned :=
  let version := IntegerValue (arg info 0) in
  _ ← native_void (fdb_transaction_set_read_version tr version.1);
  mret (return_to_script [version.2] (Normal JsUndefined)).

Definition Transaction_GetAddressesForKey (tr : FDBTransaction)
    (info : list JsValue) : M (heap * N) Returned :=
  key ← on_heap (StringParams_ctor (arg info 0));
  f ← native (fdb_transaction_get_addresses_for_key tr (str key) (len key));
  let r := futureToJS f (arg info 1) getStringArray in
  _ ← on_heap (StringParams_dtor key);
  mret (Pending r).
End MoreVerbs.

(** The static methods of [Transaction] whose bodies are above. *)
Inductive Method :=
| Commit | Reset | Cancel | OnError
| Get | GetKey | Set_ | Clear | AtomicOp | GetRange | ClearRange
| SetReadVersion | GetReadVersion | GetCommittedVersion | GetVersionStamp
| GetAddressesForKey | AddReadConflictRange | AddWriteConflictRange.

Definition Transaction_method `{host : Host} `{conv : V8Convert} {N}
    `{client : FdbC N} `{verbs : FdbC_verbs N} (m : Method)
  : FDBTransaction -> list JsValue -> M (heap * N) Returned :=
  match m with
  | Commit => Transaction_Commit
  | Reset => Transaction_Reset
  | Cancel => Transaction_Cancel
  | OnError => Transaction_OnError
  | Get => Transaction_Get
  | GetKey => Transaction_GetKey
  | Set_ => Transaction_Set
  | Clear => Transaction_Clear
  | AtomicOp => Transaction_AtomicOp
  | GetRange => Transaction_GetRange
  | ClearRange => Transaction_ClearRange
  | SetReadVersion => Transaction_SetReadVersion
  | GetReadVersion => Transaction_GetReadVersion
  | GetCommittedVersion => Transaction_GetCommittedVersion
  | GetVersionStamp => Transaction_GetVersionStamp
  | GetAddressesForKey => Transaction_GetAddressesForKey
  | AddReadConflictRange => Transaction_AddReadConflictRange
  | AddWriteConflictRange => Transaction_AddWriteConflictRange
  end.

(** The decode function that each asynchronous method hands to the bridge;
    the others hand none. *)
Definition method_decoder `{host : Host} (m : Method)
  : option (FDBFuture -> M heap (JsValue * Z)) :=
  match m with
  | Commit | OnError => Some ignoreResult
  | Get => Some getValue
  | GetKey | GetVersionStamp => Some getKey
  | GetRange => Some getKeyValueList
  | GetReadVersion => Some getVersion
  | GetAddressesForKey => Some getStringArray
  | _ => None
  end.

(** The methods that throw on a native error. *)
Definition method_can_throw (m : Method) : bool :=
  match m with
  | GetCommittedVersion | AddReadConflictRange | AddWriteConflictRange => true
  | _ => false
  end.

(** The bytes of an argument that is a string or a buffer: the bytes that
    the host writes for the string, the bytes the buffer views. *)
Definition arg_bytes (h : heap) (v : JsValue) : option (list Z) :=
  match v with
  | JsString s => Some (utf8_encoding s)
  | JsBuffer data length => load h data length
  | _ => None
  end.

(** The conversions that a method makes of its arguments, in order. *)
Definition method_conversions `{conv : V8Convert} (m : Method)
    (info : list JsValue) : list (option JsValue) :=
  match m with
  | OnError => [(Int32Value (arg info 0)).2]
  | GetKey => [(Int32Value (arg info 1)).2; (Int32Value (arg info 2)).2]
  | AtomicOp => [(Int32Value (arg info 2)).2]
  | GetRange =>
      [(Int32Value (arg info 2)).2; (Int32Value (arg info 5)).2;
       (Int32Value (arg info 6)).2; (Int32Value (arg info 7)).2;
       (Int32Value (arg info 8)).2; (Int32Value (arg info 9)).2]
  | SetReadVersion => [(IntegerValue (arg info 0)).2]
  | _ => []
  end.

(** The arguments of a method that are marshalled as bytes. *)
Definition method_byte_args (m : Method) : list nat :=
  match m with
  | Get | GetKey | Clear | GetAddressesForKey => [0%nat]
  | Set_ | AtomicOp | ClearRange | AddReadConflictRange
  | AddWriteConflictRange => [0%nat; 1%nat]
  | GetRange => [0%nat; 3%nat]
  | _ => []
  end.

(** A string or a buffer. *)
Definition is_bytes (v : JsValue) : bool :=
  match v with
  | JsString _ | JsBuffer _ _ => true
  | _ => false
  end.

(** A zero-terminated string at [p]: the bytes [bs], none of them zero,
    then a zero byte, all within the block of [p]. *)
Definition c_string (h : heap) (p : ptr) (bs : list Z) : Prop :=
  ∃ blk rest,
    h !! p.1 = Some blk
    ∧ 0 ≤ p.2
    ∧ drop (Z.to_nat p.2) blk = bs ++ 0 :: rest
    ∧ Forall (λ b, b ≠ 0) bs
    ∧ Z.of_nat (length bs) ≤ INT_MAX.

(** A client for examples that does nothing. *)
Definition example_verbs : FdbC_verbs Z :=
  {| fdb_transaction_commit := λ tr _ n, (tr, n);
     fdb_transaction_reset := λ _ _ n, n;
     fdb_transaction_cancel := λ _ _ n, n;
     fdb_transaction_on_error := λ tr _ _ n, (tr, n);
     fdb_transaction_get_key := λ tr _ _ _ _ _ _ n, (tr, n);
     fdb_transaction_set := λ _ _ lk _ lv _ n, n + lk + lv;
     fdb_transaction_clear := λ _ _ _ _ n, n;
     fdb_transaction_atomic_op := λ _ _ _ _ _ _ _ n, n;
     fdb_transaction_get_range := λ tr _ _ _ _ _ _ _ _ _ _ _ _ _ _ _ n, (tr, n);
     fdb_transaction_clear_range := λ _ _ _ _ _ _ n, n;
     fdb_transaction_set_read_version := λ _ _ _ n, n;
     fdb_transaction_get_addresses_for_key := λ tr _ _ _ n, (tr, n) |}.

(** Conversions for examples: numbers convert, undefined converts to 0,
    and converting any other value throws the value itself. *)
Definition example_conv : V8Convert :=
  {| ToInt32 := λ v, match v with
                     | JsNumber n => Some (to_int32 n)
                     | JsUndefined => Some 0
                     | _ => None
                     end;
     ToInteger := λ v, match v with
                       | JsNumber n => Some n
                       | JsUndefined => Some 0
                       | _ => None
                       end;
     conversion_exception := λ v, v |}.


(** ** The prototype of [Transaction] *)

(** What [Transaction::Init] binds a name to: [SetOption], [Watch], or one
    of the methods above. *)
Inductive Bound :=
| FSetOption | FWatch | FMethod (m : Method).

(** [Transaction::Init]: the names set on the prototype, in order. *)
Definition Transaction_Init : list (string * Bound) :=
  [("setOption", FSetOption);
   ("commit", FMethod Commit);
   ("reset", FMethod Reset);
   ("onError", FMethod OnError);
   ("get", FMethod Get);
   ("getRange", FMethod GetRange);
   ("getKey", FMethod GetKey);
   ("watch", FWatch);
   ("set", FMethod Set_);
   ("clear", FMethod Clear);
   ("clearRange", FMethod ClearRange);
   ("addReadConflictRange", FMethod AddReadConflictRange);
   ("addWriteConflictRange", FMethod AddWriteConflictRange);
   ("getReadVersion", FMethod GetReadVersion);
   ("setReadVersion", FMethod SetReadVersion);
   ("getCommittedVersion", FMethod GetCommittedVersion);
   ("cancel", FMethod Cancel);
   ("getAddressesForKey", FMethod GetAddressesForKey)]%string.

(** ** The encoders of lib/index.ts *)

(** [Buffer.alloc(size)]: [size] zero bytes. *)
Definition Buffer_alloc (size : nat) : list Z := replicate size 0.

(** [buf.writeInt32BE(value, offset)] for an integer [value]: out of the
    range of a signed 32-bit integer, or with fewer than four bytes from
    [offset], it throws; otherwise the four bytes are set, the most
    significant first. *)
Definition writeInt32BE (buf : list Z) (value : Z) (offset : nat)
  : option (list Z) :=
  if decide (- 2 ^ 31 ≤ value ≤ 2 ^ 31 - 1 ∧ (offset + 4 ≤ length buf)%nat) then
    let u := to_uint32 value in
    Some (<[offset := Z.land (Z.shiftr u 24) 0xFF]>
          (<[(offset + 1)%nat := Z.land (Z.shiftr u 16) 0xFF]>
           (<[(offset + 2)%nat := Z.land (Z.shiftr u 8) 0xFF]>
            (<[(offset + 3)%nat := Z.land u 0xFF]> buf))))
  else None.

(** [buf.readInt32BE(offset)]: with fewer than four bytes from [offset] it
    throws. *)
Definition readInt32BE (buf : list Z) (offset : nat) : option Z :=
  match buf !! offset, buf !! (offset + 1)%nat,
        buf !! (offset + 2)%nat, buf !! (offset + 3)%nat with
  | Some first, Some b1, Some b2, Some last =>
      Some (to_int32 (Z.shiftl first 24) + b1 * 2 ^ 16 + b2 * 2 ^ 8 + last)
  | _, _, _, _ => None
  end.

(** [encoders.int32BE]. *)
Definition int32BE_pack (num : Z) : option (list Z) :=
  writeInt32BE (Buffer_alloc 4) num 0.

Definition int32BE_unpack (buf : list Z) : option Z := readInt32BE buf 0.

(** ** The order of the native calls of lib/index.ts *)

(** Wherever [startNetwork] stands among the calls: no database was created
    before it, and no network option is set after it. *)
Definition start_separates (l : list Index.NativeCall) : Prop :=
  ∀ l1 l2, l = l1 ++ Index.startNetwork :: l2 →
    (Index.createDatabase ∉ l1)
    ∧ ∀ code val, Index.setNetworkOption code val ∉ l2.

(** What holds of the calls made so far, with the guard. *)
Definition ordered (s : Index.State) : Prop :=
  Index.guarded s
  ∧ start_separates (Index.calls s)
  ∧ (Index.createDatabase ∈ Index.calls s → Index.initCalled s = true).

(** An environment in which the start of the network throws. *)
Definition example_failing_env : Index.Env :=
  {| Index.apiVersion_get := λ _, Some 510;
     Index.startNetwork_throws := λ _, true;
     Index.createDatabase_throws := λ _, false;
     Index.setNetworkOption_throws := λ _, false |}.

(** * Properties *)

(** ** Machine integers *)

Lemma to_int32_small (n : Z) : 0 ≤ n ≤ INT_MAX → to_int32 n = n.
Proof.
  unfold to_int32, INT_MAX. intros Hn.
  rewrite Z.mod_small; lia.
Qed.

Lemma to_uint32_small (n : Z) : 0 ≤ n ≤ kMaxLength → to_uint32 n = n.
Proof.
  unfold to_uint32, kMaxLength. intros Hn.
  rewrite Z.mod_small; lia.
Qed.

Example int64_to_double_tie_to_even :
  int64_to_double (2 ^ 53 + 1) = 2 ^ 53
  ∧ int64_to_double (2 ^ 53 + 3) = 2 ^ 53 + 4
  ∧ int64_to_double (- (2 ^ 53 + 3)) = - (2 ^ 53 + 4)
  ∧ int64_to_double (2 ^ 63 - 1) = 2 ^ 63.
Proof. repeat split. Qed.

Lemma int64_to_double_exact (v : Z) :
  - 2 ^ 53 ≤ v ≤ 2 ^ 53 → int64_to_double v = v.
Proof.
  intros Hv. unfold int64_to_double.
  destruct (Z.ltb_spec (Z.abs v) (2 ^ 53)) as [|Hbig]; [done|].
  assert (v = 2 ^ 53 ∨ v = - 2 ^ 53) as [-> | ->] by lia; reflexivity.
Qed.

(** A 64-bit integer and the double made from it are never further apart
    than half the spacing of the largest doubles in that range. *)
Lemma int64_to_double_near (v : Z) :
  - 2 ^ 63 ≤ v < 2 ^ 63 → Z.abs (int64_to_double v - v) ≤ 512.
Proof.
  intros Hv.
  destruct (Z.eq_dec v (- 2 ^ 63)) as [-> | Hmin]; [vm_compute; discriminate|].
  unfold int64_to_double.
  destruct (Z.ltb_spec (Z.abs v) (2 ^ 53)) as [|Hbig]; [lia|].
  set (a := Z.abs v) in *.
  assert (53 ≤ Z.log2 a ≤ 62) as HL.
  { split.
    - apply Z.log2_le_pow2; lia.
    - assert (Z.log2 a < 63); [|lia]. apply Z.log2_lt_pow2; lia. }
  set (e := Z.log2 a - 52).
  assert (1 ≤ e ≤ 10) as He by lia.
  rewrite Z.shiftr_div_pow2 by lia.
  set (q := a / 2 ^ e).
  rewrite !Z.shiftl_mul_pow2 by lia.
  match goal with
  | |- context [if ?c then q + 1 else q] => set (q' := if c then q + 1 else q)
  end.
  assert (q' = q + 1 ∧ 2 ^ (e - 1) ≤ a - q * 2 ^ e
          ∨ q' = q ∧ a - q * 2 ^ e ≤ 2 ^ (e - 1)) as Hq'.
  { unfold q'. destruct (Z.ltb_spec (2 ^ (e - 1)) (a - q * 2 ^ e)); simpl.
    - left. lia.
    - destruct (Z.eqb_spec (a - q * 2 ^ e) (2 ^ (e - 1))); simpl.
      + destruct (Z.odd q); [left|right]; lia.
      + right. lia. }
  clearbody q'.
  assert (0 ≤ a - q * 2 ^ e < 2 ^ e) as Hr.
  { unfold q. pose proof (Z.mod_pos_bound a (2 ^ e) ltac:(lia)) as Hmod.
    rewrite Z.mod_eq in Hmod by lia. lia. }
  assert (2 ^ e = 2 * 2 ^ (e - 1)) as He2.
  { replace e with (Z.succ (e - 1)) at 1 by lia. rewrite Z.pow_succ_r; lia. }
  assert (2 ^ (e - 1) ≤ 512) as Hh.
  { change 512 with (2 ^ 9). apply Z.pow_le_mono_r; lia. }
  clearbody q.
  destruct (Z.sgn_spec v) as [[? ->]|[[? ->]|[? ->]]]; unfold a in *; nia.
Qed.

(** ** Memory *)

Lemma load_length (h : heap) p n bs :
  load h p n = Some bs → Z.of_nat (length bs) = n.
Proof.
  unfold load. destruct (h !! p.1) as [old|]; [|done].
  case_decide as Hb; [|done]. intros [= <-].
  rewrite length_take, length_drop. lia.
Qed.

Lemma load_mono (h h' : heap) p n bs :
  h ⊆ h' → load h p n = Some bs → load h' p n = Some bs.
Proof.
  intros Hsub. unfold load.
  destruct (h !! p.1) as [old|] eqn:Hold; [|done].
  by rewrite (lookup_weaken _ _ _ _ Hold Hsub).
Qed.

Lemma load_block (h : heap) b bs :
  h !! b = Some bs → load h (b, 0) (Z.of_nat (length bs)) = Some bs.
Proof.
  intros Hb. unfold load. simpl. rewrite Hb.
  case_decide as Hd; [|lia].
  by rewrite Nat2Z.id, drop_0, firstn_all.
Qed.

Lemma fresh_block_free (h : heap) : h !! fresh (dom h) = None.
Proof. apply not_elem_of_dom, is_fresh. Qed.

Lemma alloc_extends (h : heap) bs : h ⊆ <[fresh (dom h) := bs]> h.
Proof. apply insert_subseteq, fresh_block_free. Qed.

Lemma store_block (h : heap) b old bs :
  h !! b = Some old → length old = length bs →
  store (b, 0) bs h = Some (tt, <[b := bs]> h).
Proof.
  intros Hb Hlen. unfold store. simpl. rewrite Hb.
  case_decide as Hd; [|lia]. simpl.
  rewrite drop_ge by lia. by rewrite app_nil_r.
Qed.

(** ** The value marshaler *)

Example utf8_encoding_samples :
  utf8_encoding [0x61] = [0x61]
  ∧ utf8_encoding [0xE9] = [0xC3; 0xA9]
  ∧ utf8_encoding [0x20AC] = [0xE2; 0x82; 0xAC]
  ∧ utf8_encoding [0xD83D; 0xDE00] = [0xF0; 0x9F; 0x98; 0x80]
  ∧ utf8_encoding [0x61; 0; 0x62] = [0x61; 0; 0x62].
Proof. repeat split. Qed.

Lemma lor_byte (a b : Z) : 0 ≤ a < 256 → 0 ≤ b < 256 → 0 ≤ Z.lor a b < 256.
Proof.
  intros Ha Hb. assert (0 ≤ Z.lor a b) as Hnn by (apply Z.lor_nonneg; lia).
  split; [done|].
  destruct (Z.eq_dec (Z.lor a b) 0) as [->|Hne]; [lia|].
  change 256 with (2 ^ 8). apply Z.log2_lt_pow2; [lia|].
  rewrite Z.log2_lor by lia.
  assert (∀ x, 0 ≤ x < 256 → Z.log2 x < 8) as Hlog.
  { intros x Hx. destruct (Z.eq_dec x 0) as [->|]; [done|].
    apply Z.log2_lt_pow2; lia. }
  pose proof (Hlog a Ha). pose proof (Hlog b Hb). lia.
Qed.

Lemma utf8_encode_code_point_bytes (cp : Z) :
  0 ≤ cp < 0x110000 →
  Forall (λ b, 0 ≤ b < 256) (utf8_encode_code_point cp).
Proof.
  intros Hcp. unfold utf8_encode_code_point.
  change 0x3F with (Z.ones 6). rewrite !Z.land_ones, !Z.shiftr_div_pow2 by lia.
  change (2 ^ 6) with 64. change (2 ^ 12) with 4096. change (2 ^ 18) with 262144.
  destruct (Z.ltb_spec cp 0x80); [|destruct (Z.ltb_spec cp 0x800);
    [|destruct (Z.ltb_spec cp 0x10000)]];
    repeat (apply Forall_cons; split); try apply Forall_nil_2;
    try (apply lor_byte; Z.div_mod_to_equations; lia); lia.
Qed.

Lemma utf16_code_points_range (s : list Z) :
  Forall (λ c, 0 ≤ c < 0x10000) s →
  Forall (λ cp, 0 ≤ cp < 0x110000) (utf16_code_points s).
Proof.
  assert (∀ n (s : list Z), (length s ≤ n)%nat →
            Forall (λ c, 0 ≤ c < 0x10000) s →
            Forall (λ cp, 0 ≤ cp < 0x110000) (utf16_code_points s)) as Hn.
  { induction n as [|n IH]; intros [|c [|d rest]] Hlen Hs; simpl in *;
      try lia; try by constructor.
    - constructor; [|done]. apply Forall_inv in Hs. lia.
    - inversion Hs as [|? ? Hc Hs']; subst.
      inversion Hs' as [|? ? Hd Hrest]; subst.
      destruct (is_lead_surrogate c && is_trail_surrogate d) eqn:Hpair.
      + apply andb_true_iff in Hpair as [Hl Ht].
        unfold is_lead_surrogate, is_trail_surrogate in *.
        constructor; [lia|]. apply IH; [lia|done].
      + constructor; [lia|]. apply (IH (d :: rest)); [simpl; lia|done]. }
  by apply (Hn (length s)).
Qed.

(** The encoding of a string of 16-bit code units is a string of bytes. *)
Lemma utf8_encoding_bytes (s : list Z) :
  Forall (λ c, 0 ≤ c < 0x10000) s →
  Forall (λ b, 0 ≤ b < 256) (utf8_encoding s).
Proof.
  intros Hs. apply utf16_code_points_range in Hs. unfold utf8_encoding.
  induction Hs as [|cp cps Hcp _ IH]; simpl; [done|].
  apply Forall_app. split; [by apply utf8_encode_code_point_bytes|done].
Qed.

Lemma utf8_write_fits cps capacity :
  Z.of_nat (length (flat_map utf8_encode_code_point cps)) ≤ capacity →
  utf8_write cps capacity = flat_map utf8_encode_code_point cps.
Proof.
  revert capacity. induction cps as [|cp cps IH]; intros capacity Hcap; [done|].
  simpl in *. rewrite length_app in Hcap.
  destruct (Z.leb_spec (Z.of_nat (length (utf8_encode_code_point cp))) capacity);
    [|lia].
  f_equal. apply IH. lia.
Qed.

Lemma WriteUtf8_exact (h : heap) b old s :
  h !! b = Some old →
  length old = length (utf8_encoding s) →
  WriteUtf8 s (b, 0) (Utf8Length s) h
  = Some (Utf8Length s, <[b := utf8_encoding s]> h).
Proof.
  intros Hb Hlen. unfold WriteUtf8, Utf8Length.
  rewrite utf8_write_fits by (unfold utf8_encoding; lia).
  fold (utf8_encoding s). case_decide; [lia|].
  unfold mbind, M_bind. by rewrite (store_block h b old _ Hb Hlen).
Qed.

Lemma StringParams_ctor_string `{host : Host} (s : list Z) (h : heap) :
  Utf8Length s ≤ INT_MAX →
  StringParams_ctor (JsString s) h
  = Some ({| owned := true; str := (fresh (dom h), 0); len := Utf8Length s |},
          <[fresh (dom h) := utf8_encoding s]> h).
Proof.
  intros Hmax. assert (0 ≤ Utf8Length s) as Hnn by (unfold Utf8Length; lia).
  unfold StringParams_ctor, new_uint8_array. rewrite to_int32_small by done.
  case_decide; [|done]. unfold alloc, mbind, M_bind.
  erewrite WriteUtf8_exact.
  - by rewrite insert_insert_eq.
  - apply lookup_insert_eq.
  - rewrite length_map, length_seq. unfold Utf8Length. by rewrite Nat2Z.id.
Qed.

(** Whatever the string, when the constructor returns, the parameter is an
    owned one on the new block, and the heap is the heap before with that
    block. *)
Lemma StringParams_ctor_string_inv `{host : Host} (s : list Z) (h h' : heap)
    (p : StringParams) :
  StringParams_ctor (JsString s) h = Some (p, h') →
  ∃ bs, p = {| owned := true; str := (fresh (dom h), 0);
               len := to_int32 (Utf8Length s) |}
    ∧ h' = <[fresh (dom h) := bs]> h.
Proof.
  unfold StringParams_ctor, new_uint8_array. case_decide; [|done].
  unfold alloc, mbind, M_bind, WriteUtf8, mbind, M_bind, store.
  cbn [fst snd]. rewrite lookup_insert_eq. case_decide; [|done].
  intros [= <- <-]. eexists. split; [done|]. by rewrite insert_insert_eq.
Qed.






(** The string of an unpaired lead surrogate and the letter x is not well
    formed and has no UTF-8 encoding; it is marshalled as four bytes, the
    first three the form of the surrogate itself. *)
Example StringParams_unpaired_surrogate :
  utf16_scalar_values [0xD800; 0x78] = None
  ∧ ∃ p h', StringParams_ctor (host := example_host) (JsString [0xD800; 0x78])
              example_heap = Some (p, h')
      ∧ view h' p = Some [0xED; 0xA0; 0x80; 0x78].
Proof. split; [reflexivity|]. eexists _, _. split; reflexivity. Qed.



(** What the constructor leaves for the destructor: an owned parameter is
    the first byte of a live block that was not in the heap before. *)
Lemma StringParams_ctor_owned `{host : Host} (keyVal : JsValue) (h h' : heap)
    (p : StringParams) :
  StringParams_ctor keyVal h = Some (p, h') →
  h ⊆ h'
  ∧ (owned p = true →
     (str p).2 = 0 ∧ h !! (str p).1 = None ∧ is_Some (h' !! (str p).1)).
Proof.
  destruct keyVal; try done.
  - intros Hctor.
    apply StringParams_ctor_string_inv in Hctor as (bs & -> & ->). simpl.
    split; [apply alloc_extends|]. intros _.
    split; [done|]. split; [apply fresh_block_free|].
    rewrite lookup_insert_eq. by eexists.
  - intros [= <- <-]. by simpl.
Qed.

Lemma StringParams_dtor_returns (p : StringParams) (h : heap) :
  (owned p = true → (str p).2 = 0 ∧ is_Some (h !! (str p).1)) →
  ∃ h', StringParams_dtor p h = Some (tt, h')
    ∧ ∀ b, (owned p = true → b ≠ (str p).1) → h' !! b = h !! b.
Proof.
  unfold StringParams_dtor, free. destruct (owned p); intros Hlive.
  - destruct (Hlive eq_refl) as [Hoff [bs Hbs]]. rewrite Hbs.
    case_decide; [|done]. eexists. split; [done|].
    intros b Hb. rewrite lookup_delete_ne; [done|]. intros Heq.
    by apply Hb.
  - by eexists.
Qed.

(** ** The decode functions *)

Lemma CopyBuffer_copies (h : heap) (data : ptr) (size : Z) (bs : list Z) :
  load h data size = Some bs →
  size ≤ kMaxLength →
  CopyBuffer data (to_uint32 size) h
  = Some (JsBuffer (fresh (dom h), 0) size, <[fresh (dom h) := bs]> h).
Proof.
  intros Hload Hmax.
  assert (0 ≤ size) by (apply load_length in Hload; lia).
  unfold CopyBuffer. rewrite to_uint32_small by lia.
  case_decide; [|lia]. by rewrite Hload.
Qed.

(** C2.  On a zero error code [getValue] returns null when the value is
    not present, and otherwise a buffer over a block that was not in the
    heap, holding the bytes of the returned region; null is no buffer, so
    not the empty one. *)
Theorem getValue_present_or_null (future : FDBFuture) (h : heap)
    (valuePresent : Z) (value : ptr) (valueLength : Z) :
  fdb_future_get_value future = (0, (valuePresent, value, valueLength)) →
  (valuePresent = 0 → getValue future h = Some ((JsNull, 0), h))
  ∧ (valuePresent ≠ 0 →
     ∀ bs, load h value valueLength = Some bs → valueLength ≤ kMaxLength →
       ∃ b h', getValue future h = Some ((b, 0), h')
         ∧ b = JsBuffer (fresh (dom h), 0) valueLength
         ∧ h !! fresh (dom h) = None
         ∧ h ⊆ h'
         ∧ buffer_bytes h' b = Some bs)
  ∧ (∀ data length, JsNull ≠ JsBuffer data length).
Proof.
  intros Hget. unfold getValue. rewrite Hget. simpl. split; [|split].
  - intros ->. done.
  - intros Hpresent bs Hload Hmax. case_decide; [|done].
    unfold mbind, M_bind. rewrite (CopyBuffer_copies _ _ _ _ Hload Hmax).
    eexists _, _. split; [reflexivity|]. split; [done|].
    split; [apply fresh_block_free|]. split; [apply alloc_extends|].
    simpl. rewrite <- (load_length _ _ _ _ Hload).
    apply load_block, lookup_insert_eq.
  - done.
Qed.

Lemma getValue_present_or_null_witness :
  getValue (example_future 0 0 0) example_heap = Some ((JsNull, 0), example_heap)
  ∧ ∃ b h', getValue (example_future 0 1 0) example_heap = Some ((b, 0), h')
      ∧ b = JsBuffer (fresh (dom example_heap), 0) 1
      ∧ example_heap !! fresh (dom example_heap) = None
      ∧ example_heap ⊆ h'
      ∧ buffer_bytes h' b = Some [0x76].
Proof.
  split.
  - apply (getValue_present_or_null (example_future 0 0 0) example_heap
             0 (1%positive, 3) 1); reflexivity.
  - apply (proj1 (proj2 (getValue_present_or_null (example_future 0 1 0)
                           example_heap 1 (1%positive, 3) 1 eq_refl))).
    + lia.
    + reflexivity.
    + unfold kMaxLength. lia.
Defined.

(** C3.  Whichever decode function it is, when its accessor answers with a
    non-zero error code the function makes no host value and touches no
    memory: it returns undefined with that code in [*errOut]. *)
Theorem decode_skipped_on_error `{host : Host} (d : Decoder) (future : FDBFuture)
    (h : heap) :
  native_error d future ≠ 0 →
  decode d future h = Some ((JsUndefined, native_error d future), h).
Proof.
  destruct d; simpl; intros Herr.
  - unfold getValue. destruct (fdb_future_get_value future) as [e [[? ?] ?]].
    simpl in *. by case_decide.
  - unfold getKey. destruct (fdb_future_get_key future) as [e [? ?]].
    simpl in *. by case_decide.
  - unfold getKeyValueList.
    destruct (fdb_future_get_keyvalue_array future) as [e [[? ?] ?]].
    simpl in *. by case_decide.
  - unfold getStringArray.
    destruct (fdb_future_get_string_array future) as [e [? ?]].
    simpl in *. by case_decide.
  - unfold getVersion. destruct (fdb_future_get_version future) as [e ?].
    simpl in *. by case_decide.
Qed.

Lemma decode_skipped_on_error_witness :
  decode (host := example_host) DKeyValueList (example_future 1020 1 7) example_heap
  = Some ((JsUndefined, 1020), example_heap).
Proof.
  apply (@decode_skipped_on_error example_host DKeyValueList
           (example_future 1020 1 7) example_heap).
  vm_compute. discriminate.
Defined.

Lemma pair_copies_mono (h0 h0' h h' : heap) v item :
  h0' ⊆ h0 → h ⊆ h' → pair_copies h0 h v item → pair_copies h0' h' v item.
Proof.
  intros H0 Hh (pk & pv & -> & Hk & Hv & Hlk & Hlv).
  exists pk, pv. simpl in *. repeat split.
  - destruct (h0' !! pk.1) eqn:E; [|done].
    by rewrite (lookup_weaken _ _ _ _ E H0) in Hk.
  - destruct (h0' !! pv.1) eqn:E; [|done].
    by rewrite (lookup_weaken _ _ _ _ E H0) in Hv.
  - by eapply load_mono.
  - by eapply load_mono.
Qed.

Lemma Array_Set_next (done : list JsValue) (x : JsValue) (n : nat) :
  Array_Set (Z.of_nat (length done)) x (done ++ replicate (S n) JsUndefined)
  = (done ++ [x]) ++ replicate n JsUndefined.
Proof.
  unfold Array_Set. rewrite Nat2Z.id. case_decide as Hlt.
  - rewrite insert_app_r_alt by lia. rewrite Nat.sub_diag. simpl.
    by rewrite <- app_assoc.
  - rewrite length_app, length_replicate in Hlt. lia.
Qed.

(** The loop of [getKeyValueList], from any round on: with [done] filled
    in so far, it fills in a pair for each native element left. *)
Lemma getKeyValueList_loop_copies (kv : Z → FDBKeyValue)
    (items : list (list Z * list Z)) :
  ∀ (done : list JsValue) (h : heap),
    (∀ j item, items !! j = Some item →
       kv_holds h (kv (Z.of_nat (length done + j))) item) →
    ∃ vals h',
      getKeyValueList_loop (length items) (Z.of_nat (length done)) kv
        (done ++ replicate (length items) JsUndefined) h
      = Some (done ++ vals, h')
      ∧ h ⊆ h'
      ∧ Forall2 (pair_copies h h') vals items.
Proof.
  induction items as [|item items IH]; intros done h Hkv.
  - exists [], h. simpl. by rewrite !app_nil_r.
  - pose proof (Hkv 0%nat item eq_refl) as Hhead.
    rewrite Nat.add_0_r in Hhead.
    destruct Hhead as (Hk & Hkmax & Hv & Hvmax).
    set (b1 := fresh (dom h)).
    set (h1 := <[b1 := item.1]> h).
    set (b2 := fresh (dom h1)).
    set (h2 := <[b2 := item.2]> h1).
    assert (h ⊆ h1) as Hh1 by apply alloc_extends.
    assert (h1 ⊆ h2) as Hh2 by apply alloc_extends.
    assert (h ⊆ h2) as Hh by (by etrans).
    set (x := JsObject [("key"%string, JsBuffer (b1, 0) (Z.of_nat (length item.1)));
                        ("value"%string, JsBuffer (b2, 0) (Z.of_nat (length item.2)))]).
    destruct (IH (done ++ [x]) h2) as (vals & h' & Hrun & Hsub & Hall).
    { intros j it Hj. rewrite length_app. simpl.
      replace (length done + 1 + j)%nat with (length done + S j)%nat by lia.
      destruct (Hkv (S j) it Hj) as (? & ? & ? & ?).
      repeat split; try done; by eapply load_mono. }
    exists (x :: vals), h'. split; [|split].
    + cbn [length getKeyValueList_loop]. unfold mbind, M_bind.
      rewrite (CopyBuffer_copies _ _ _ _ Hk Hkmax). fold b1 h1.
      rewrite (CopyBuffer_copies _ _ _ _ (load_mono _ _ _ _ _ Hh1 Hv) Hvmax).
      fold b2 h2.
      rewrite <- (load_length _ _ _ _ Hk), <- (load_length _ _ _ _ Hv).
      simpl Object_Set. fold x.
      rewrite Array_Set_next.
      replace (Z.of_nat (length done) + 1) with (Z.of_nat (length (done ++ [x])))
        by (rewrite length_app; simpl; lia).
      rewrite Hrun. by rewrite <- app_assoc.
    + by etrans.
    + constructor.
      * exists (b1, 0), (b2, 0). simpl. repeat split.
        -- apply fresh_block_free.
        -- destruct (h !! b2) eqn:E; [|done].
           pose proof (lookup_weaken _ _ _ _ E Hh1) as E1.
           assert (h1 !! b2 = None) as E2 by apply fresh_block_free.
           congruence.
        -- apply (load_mono h2); [done|]. apply (load_mono h1); [done|].
           apply load_block, lookup_insert_eq.
        -- apply (load_mono h2); [done|].
           apply load_block, lookup_insert_eq.
      * eapply Forall2_impl; [exact Hall|]. intros v it Hp.
        eapply pair_copies_mono; [exact Hh| |exact Hp]. done.
Qed.

(** C8.  On a zero error code, when the native array holds [items],
    [getKeyValueList] returns [{values, more}]: [values] has as many
    elements as the native count, one [{key, value}] pair of new buffers
    for each item, in the order of the array, holding the item's bytes, and
    [more] is true exactly when the native indicator is not zero. *)
Theorem getKeyValueList_decodes (future : FDBFuture) (h : heap)
    (kv : Z → FDBKeyValue) (len more : Z) (items : list (list Z * list Z)) :
  fdb_future_get_keyvalue_array future = (0, (kv, len, more)) →
  len = Z.of_nat (length items) →
  (∀ i item, items !! i = Some item → kv_holds h (kv (Z.of_nat i)) item) →
  ∃ vals h',
    getKeyValueList future h
    = Some ((JsObject [("values"%string, JsArray vals);
                       ("more"%string, JsBoolean (negb (more =? 0)))], 0), h')
    ∧ Z.of_nat (length vals) = len
    ∧ h ⊆ h'
    ∧ Forall2 (pair_copies h h') vals items.
Proof.
  intros Hget -> Hkv.
  destruct (getKeyValueList_loop_copies kv items [] h Hkv)
    as (vals & h' & Hrun & Hsub & Hall).
  exists vals, h'. split; [|split; [|split]]; try done.
  - unfold getKeyValueList. rewrite Hget. simpl.
    unfold mbind, M_bind, Array_New. rewrite Nat2Z.id.
    simpl in Hrun. change (Z.of_nat 0) with 0 in Hrun. by rewrite Hrun.
  - by rewrite (Forall2_length _ _ _ Hall).
Qed.

Lemma getKeyValueList_decodes_witness :
  ∃ vals h',
    getKeyValueList (example_future 0 1 0) example_heap
    = Some ((JsObject [("values"%string, JsArray vals);
                       ("more"%string, JsBoolean (negb (1 =? 0)))], 0), h')
    ∧ Z.of_nat (length vals) = 2
    ∧ example_heap ⊆ h'
    ∧ Forall2 (pair_copies example_heap h') vals example_items.
Proof.
  apply (getKeyValueList_decodes (example_future 0 1 0) example_heap
           example_kv 2 1 example_items).
  - reflexivity.
  - reflexivity.
  - intros [|[|i]] item Hitem; simpl in Hitem; [| |done];
      injection Hitem as <-; unfold kv_holds, kMaxLength; simpl;
      repeat split; (reflexivity || lia).
Defined.

(** ** Versions *)

(** The version [2^53 + 1] reaches the host as the number [2^53], with a
    zero error code. *)
Lemma getVersion_rounds_2_53_plus_1 :
  getVersion (example_future 0 0 (2 ^ 53 + 1)) ∅ = Some ((JsNumber (2 ^ 53), 0), ∅)
  ∧ getVersion (example_future 0 0 (2 ^ 53 + 1)) ∅
    ≠ Some ((JsNumber (2 ^ 53 + 1), 0), ∅).
Proof.
  assert (getVersion (example_future 0 0 (2 ^ 53 + 1)) ∅
          = Some ((JsNumber (2 ^ 53), 0), ∅)) as E by reflexivity.
  split; [exact E|]. rewrite E. intros [=].
Qed.

(** C7, amended.  A version between [-2^53] and [2^53] reaches the host as
    the same number, from [getVersion] as from [getCommittedVersion]. *)
Theorem version_exact_within_2_53 {N} `{client : FdbC N} (v : Z) :
  - 2 ^ 53 ≤ v ≤ 2 ^ 53 →
  (∀ (future : FDBFuture) (h : heap),
     fdb_future_get_version future = (0, v) →
     getVersion future h = Some ((JsNumber v, 0), h))
  ∧ (∀ (tr : FDBTransaction) (info : list JsValue) (h : heap) (n n' : N),
       fdb_transaction_get_committed_version tr h n = ((0, v), n') →
       Transaction_GetCommittedVersion tr info (h, n)
       = Some (Normal (JsNumber v), (h, n'))).
Proof.
  intros Hv. split.
  - intros future h Hget. unfold getVersion. rewrite Hget.
    case_decide; [done|]. by rewrite int64_to_double_exact.
  - intros tr info h n n' Hget.
    unfold Transaction_GetCommittedVersion, native, mbind, M_bind. simpl.
    rewrite Hget. case_decide; [done|]. by rewrite int64_to_double_exact.
Qed.

Lemma version_exact_within_2_53_witness :
  getVersion (example_future 0 0 (2 ^ 53)) example_heap
  = Some ((JsNumber (2 ^ 53), 0), example_heap)
  ∧ Transaction_GetCommittedVersion (client := example_client) 1%positive []
      (example_heap, 0)
    = Some (Normal (JsNumber 7), (example_heap, 0)).
Proof.
  split.
  - apply (proj1 (@version_exact_within_2_53 Z example_client (2 ^ 53)
                    ltac:(lia))).
    reflexivity.
  - apply (proj2 (@version_exact_within_2_53 Z example_client 7 ltac:(lia))).
    reflexivity.
Defined.

(** ** The verbs *)

(** [get] is decoded by [getValue]. *)
Lemma Transaction_Get_decodes_with_getValue `{host : Host} {N} `{client : FdbC N}
    (tr : FDBTransaction) (info : list JsValue) (w : heap * N)
    (key : StringParams) (h1 : heap) :
  StringParams_ctor (arg info 0) w.1 = Some (key, h1) →
  ∃ p w', Transaction_Get tr info w = Some (Pending p, w')
    ∧ po_extract p = getValue
    ∧ po_callback p = arg info 2.
Proof.
  destruct w as [h n]. simpl. intros Hkey.
  unfold Transaction_Get, on_heap, native, mbind, M_bind. simpl.
  rewrite Hkey. simpl.
  destruct (fdb_transaction_get _ _ _ _ _ _) as [f n']. simpl.
  destruct (StringParams_ctor_owned _ _ _ _ Hkey) as [_ Hlive].
  destruct (StringParams_dtor_returns key h1) as (h2 & -> & _).
  { intros Ho. by destruct (Hlive Ho) as (? & ? & ?). }
  by eexists _, _.
Qed.

(** C4.  [GetVersionStamp] makes the native call of [GetReadVersion],
    [fdb_transaction_get_read_version], and no other: the client is left
    in the state that call leaves it in, and the pending operation holds
    the future that call returned, to be decoded by [getKey]. *)
Theorem GetVersionStamp_issues_get_read_version {N} `{client : FdbC N}
    (tr : FDBTransaction) (info : list JsValue) (h : heap) (n : N) :
  ∃ p,
    Transaction_GetVersionStamp tr info (h, n)
    = Some (Pending p, (h, (fdb_transaction_get_read_version tr h n).2))
    ∧ po_future p = (fdb_transaction_get_read_version tr h n).1
    ∧ po_extract p = getKey
    ∧ po_callback p = arg info 0.
Proof.
  unfold Transaction_GetVersionStamp, native, mbind, M_bind. simpl.
  destruct (fdb_transaction_get_read_version tr h n) as [f n'].
  by eexists.
Qed.

(** On the example client the future of [GetVersionStamp] is the one of
    the read-version call, not the one of the versionstamp call. *)
Example GetVersionStamp_example :
  ∃ p, Transaction_GetVersionStamp (client := example_client) 4%positive []
         (example_heap, 0)
       = Some (Pending p, (example_heap, 0))
    ∧ po_future p
      = (fdb_transaction_get_read_version (FdbC := example_client) 4%positive
           example_heap 0).1
    ∧ po_future p
      ≠ (fdb_transaction_get_versionstamp (FdbC := example_client) 4%positive
           example_heap 0).1.
Proof. eexists. split; [reflexivity|]. split; [reflexivity|]. by simpl. Qed.

Lemma AddConflictRange_throws_or_returns `{host : Host} {N} `{client : FdbC N}
    (tr : FDBTransaction) (info : list JsValue) (type : FDBConflictRangeType)
    (w w1 : heap * N) (errorCode : Z) :
  (start ← on_heap (StringParams_ctor (arg info 0));
   end_ ← on_heap (StringParams_ctor (arg info 1));
   native (fdb_transaction_add_conflict_range tr
             (str start) (len start) (str end_) (len end_) type)) w
  = Some (errorCode, w1) →
  ∃ w', Transaction_AddConflictRange tr info type w
        = Some (if decide (errorCode ≠ 0)
                then Throw (FdbError_NewInstance errorCode)
                else Normal JsUndefined, w')
    ∧ w'.2 = w1.2.
Proof.
  destruct w as [h n].
  unfold Transaction_AddConflictRange, on_heap, native, mbind, M_bind. simpl.
  destruct (StringParams_ctor (arg info 0) h) as [[start h1]|] eqn:Hs;
    simpl; [|done].
  destruct (StringParams_ctor (arg info 1) h1) as [[end_ h2]|] eqn:He;
    simpl; [|done].
  destruct (fdb_transaction_add_conflict_range _ _ _ _ _ _ _ _) as [e n'].
  intros [= <- <-]. simpl.
  destruct (StringParams_ctor_owned _ _ _ _ Hs) as [Hsub1 Hstart].
  destruct (StringParams_ctor_owned _ _ _ _ He) as [Hsub2 Hend].
  destruct (StringParams_dtor_returns end_ h2) as (h3 & -> & Hframe).
  { intros Ho. by destruct (Hend Ho) as (? & ? & ?). }
  simpl.
  destruct (StringParams_dtor_returns start h3) as (h4 & -> & _).
  { intros Ho. destruct (Hstart Ho) as (Hoff & Hnew & [bs Hbs]).
    split; [done|]. exists bs. rewrite Hframe.
    - by apply (lookup_weaken h1).
    - intros Ho' Heq. destruct (Hend Ho') as (_ & Hfresh & _). congruence. }
  by eexists.
Qed.

(** C6.  For each synchronous verb that can fail natively: with the error
    code that its native call answers, the verb comes back at once, with an
    exception holding the typed error of that code when it is not zero, and
    with a plain return value when it is zero; it never comes back with a
    pending operation. *)
Theorem sync_error_thrown_at_call_site `{host : Host} {N} `{client : FdbC N}
    (v : SyncVerb) (tr : FDBTransaction) (info : list JsValue)
    (w w1 : heap * N) (errorCode : Z) :
  sync_native_call v tr info w = Some (errorCode, w1) →
  ∃ r w', sync_verb v tr info w = Some (r, w')
    ∧ w'.2 = w1.2
    ∧ (errorCode ≠ 0 → r = Throw (FdbError_NewInstance errorCode))
    ∧ (errorCode = 0 → ∃ x, r = Normal x).
Proof.
  destruct v; simpl; intros Hcall.
  - destruct (AddConflictRange_throws_or_returns _ _ _ _ _ _ Hcall)
      as (w' & Hrun & Hn).
    eexists _, w'. split; [exact Hrun|]. split; [done|].
    case_decide; split; try done. by eexists.
  - destruct (AddConflictRange_throws_or_returns _ _ _ _ _ _ Hcall)
      as (w' & Hrun & Hn).
    eexists _, w'. split; [exact Hrun|]. split; [done|].
    case_decide; split; try done. by eexists.
  - revert Hcall. destruct w as [h n].
    unfold Transaction_GetCommittedVersion, native, mbind, M_bind, mret, M_ret.
    simpl.
    destruct (fdb_transaction_get_committed_version tr h n) as [[e ver] n'].
    simpl. intros [= <- <-].
    case_decide; eexists _, _; (split; [reflexivity|]); split; try done;
      split; try done.
    by eexists.
Qed.

Lemma sync_error_thrown_at_call_site_witness :
  ∃ r w',
    sync_verb (host := example_host) (client := example_client) addWriteConflictRange
      2%positive [JsString [0x61]; JsBuffer (1%positive, 0) 2]
      (example_heap, 2017)
    = Some (r, w')
    ∧ w'.2 = 0
    ∧ (2017 ≠ 0 → r = Throw (FdbError_NewInstance 2017))
    ∧ (2017 = 0 → ∃ x, r = Normal x).
Proof.
  apply (@sync_error_thrown_at_call_site example_host Z example_client
           addWriteConflictRange 2%positive
           [JsString [0x61]; JsBuffer (1%positive, 0) 2]
           (example_heap, 2017)
           (<[2%positive := [0x61]]> example_heap, 0) 2017).
  vm_compute. reflexivity.
Defined.

(** ** The watch handle *)

Lemma fdb_future_cancel_twice (f : FDBFuture_ptr) (w w' : WatchWorld) :
  fdb_future_cancel f w = Some (tt, w') →
  fdb_future_cancel f w' = Some (tt, w').
Proof.
  unfold fdb_future_cancel.
  destruct (futures w !! f) as [[|err]|] eqn:Hf; [| |done].
  - intros [= <-]. simpl. by rewrite lookup_insert_eq.
  - intros [= <-]. by rewrite Hf.
Qed.

Lemma fdb_future_cancel_callbacks (f : FDBFuture_ptr) (w w' : WatchWorld) :
  fdb_future_cancel f w = Some (tt, w') → callbacks w' = callbacks w.
Proof.
  unfold fdb_future_cancel.
  destruct (futures w !! f) as [[|err]|]; [| |done]; by intros [= <-].
Qed.

(** The client completing the future of a watch, and the bridge releasing
    it afterwards, both leave the watch completed. *)
Lemma native_completion_completed (watch : Watch) (w : WatchWorld)
    (cb : positive) (c : NodeCallback) (f : FDBFuture_ptr) (err : Z) :
  callback watch = Some cb →
  callbacks w !! cb = Some c →
  getFuture c = Some f →
  is_Some (futures w !! f) →
  watch_completed watch (native_completion f err w) = true.
Proof.
  intros Hcb Hc Hf [st Hst]. unfold watch_completed, native_completion.
  rewrite Hcb, Hst. destruct st as [|e]; simpl; rewrite Hc, Hf.
  - by rewrite lookup_insert_eq.
  - by rewrite Hst.
Qed.

Lemma release_future_completed (watch : Watch) (w : WatchWorld)
    (cb : positive) (c : NodeCallback) :
  callback watch = Some cb →
  callbacks w !! cb = Some c →
  watch_completed watch (release_future cb w) = true.
Proof.
  intros Hcb Hc. unfold watch_completed, release_future.
  rewrite Hcb, Hc. destruct (future c) as [f|] eqn:Hf; simpl.
  - by rewrite lookup_insert_eq.
  - by rewrite Hc; unfold getFuture; rewrite Hf.
Qed.

(** C9.  On a live watch [cancel] returns, and a second [cancel] leaves
    the state that the first one left.  On a watch that has completed
    [cancel] changes nothing; a watch has completed once the client has
    completed its future, and still when the bridge has released it. *)
Theorem Watch_Cancel_idempotent (watch : Watch) (w : WatchWorld) :
  (watch_live watch w = true →
   ∃ w', Watch_Cancel watch w = Some (tt, w')
     ∧ Watch_Cancel watch w' = Some (tt, w'))
  ∧ (watch_completed watch w = true → Watch_Cancel watch w = Some (tt, w))
  ∧ (∀ cb c f err,
       callback watch = Some cb →
       callbacks w !! cb = Some c →
       getFuture c = Some f →
       is_Some (futures w !! f) →
       watch_completed watch (native_completion f err w) = true
       ∧ watch_completed watch
           (release_future cb (native_completion f err w)) = true).
Proof.
  split; [|split].
  - unfold watch_live, Watch_Cancel.
    destruct (callback watch) as [cb|]; [|by eexists].
    destruct (callbacks w !! cb) as [c|] eqn:Hc; [|done].
    destruct (getFuture c) as [f|] eqn:Hfut.
    + intros Hlive. apply bool_decide_eq_true in Hlive as [st Hst].
      destruct (fdb_future_cancel f w) as [[[] w']|] eqn:Hcancel.
      * exists w'. split; [done|].
        rewrite (fdb_future_cancel_callbacks _ _ _ Hcancel), Hc, Hfut.
        by eapply fdb_future_cancel_twice.
      * unfold fdb_future_cancel in Hcancel. rewrite Hst in Hcancel.
        by destruct st.
    + intros _. exists w. by rewrite Hc, Hfut.
  - unfold watch_completed, Watch_Cancel.
    destruct (callback watch) as [cb|]; [|done].
    destruct (callbacks w !! cb) as [c|]; [|done].
    destruct (getFuture c) as [f|]; [|done].
    unfold fdb_future_cancel.
    by destruct (futures w !! f) as [[|err]|].
  - intros cb c f err Hcb Hc Hf Hst. split.
    + by eapply native_completion_completed.
    + eapply release_future_completed; [done|].
      unfold native_completion. destruct (futures w !! f) as [[|e]|]; exact Hc.
Qed.

Lemma Watch_Cancel_idempotent_witness :
  (∃ w', Watch_Cancel example_watch example_world = Some (tt, w')
     ∧ Watch_Cancel example_watch w' = Some (tt, w'))
  ∧ Watch_Cancel example_watch
      (release_future 3%positive (native_completion 5%positive 0 example_world))
    = Some (tt, release_future 3%positive
                  (native_completion 5%positive 0 example_world)).
Proof.
  split.
  - apply (proj1 (Watch_Cancel_idempotent example_watch example_world)).
    vm_compute. reflexivity.
  - apply (proj2 (Watch_Cancel_idempotent example_watch
                    (release_future 3%positive
                       (native_completion 5%positive 0 example_world)))).
    vm_compute. reflexivity.
Defined.

(** Cancelling the pending example watch makes its future ready with
    [operation_cancelled]; when the client completed the future first,
    cancelling leaves its result in place. *)
Example Watch_Cancel_example :
  (∃ w', Watch_Cancel example_watch example_world = Some (tt, w')
     ∧ futures w' !! 5%positive = Some (FutureReady operation_cancelled))
  ∧ Watch_Cancel example_watch (native_completion 5%positive 0 example_world)
    = Some (tt, native_completion 5%positive 0 example_world).
Proof.
  split.
  - eexists. split; [reflexivity|]. reflexivity.
  - reflexivity.
Qed.

(** ** Opening a database *)

Import Index.

Lemma started_call (c : NativeCall) (s : State) :
  started (call c s) = (started s + if decide (c = startNetwork) then 1 else 0)%nat.
Proof.
  unfold started, call. simpl. rewrite filter_app, length_app. f_equal.
  rewrite filter_cons, filter_nil. by case_decide.
Qed.

Lemma init_guarded `{env : Env} (s : State) : guarded s → guarded (init s).1.
Proof.
  unfold guarded, init. intros Hg.
  destruct (apiVersion_get s); [|done].
  destruct (initCalled s) eqn:Hi; simpl; [by rewrite Hi|].
  assert (started (call startNetwork (set_initCalled s)) = 1%nat) as Hone.
  { rewrite started_call. case_decide; [|done].
    change (started (set_initCalled s)) with (started s). by rewrite Hg. }
  by destruct (startNetwork_throws _).
Qed.

Lemma open_guarded `{env : Env} (s : State) : guarded s → guarded (open s).1.
Proof.
  intros Hg. apply init_guarded in Hg. unfold open.
  destruct (init s) as [s' []]; simpl in *; [|done].
  destruct (createDatabase_throws s'); simpl; unfold guarded in *;
    by rewrite started_call, Hg, Nat.add_0_r.
Qed.

Lemma eachOption_guarded `{env : Env} (netOpts : list (Z * Z)) (s : State) :
  guarded s → guarded (eachOption netOpts s).1.
Proof.
  revert s. induction netOpts as [|[code val] rest IH]; intros s Hg; [done|].
  simpl.
  assert (guarded (call (setNetworkOption code val) s)) as Hg'.
  { unfold guarded in *. by rewrite started_call, Hg, Nat.add_0_r. }
  destruct (setNetworkOption_throws s); [done|]. by apply IH.
Qed.

Lemma step_guarded `{env : Env} (a : Api) (s : State) : guarded s → guarded (step a s).1.
Proof.
  intros Hg. destruct a; simpl; try by apply open_guarded.
  - done.
  - done.
  - unfold configNetwork. destruct (initCalled s) eqn:Hi; [done|].
    by apply eachOption_guarded.
  - unfold guarded in *. by rewrite started_call, Hg, Nat.add_0_r.
Qed.

Lemma run_guarded `{env : Env} (l : list Api) (s : State) : guarded s → guarded (run l s).
Proof.
  revert s. induction l as [|a l IH]; intros s Hg; [done|].
  simpl. by apply IH, step_guarded.
Qed.

Lemma step_keeps_initCalled `{env : Env} (a : Api) (s : State) :
  initCalled s = true →
  initCalled (step a s).1 = true ∧ started (step a s).1 = started s.
Proof.
  intros Hi. destruct a; simpl; try done;
    try (unfold open, init; rewrite Hi;
         destruct (apiVersion_get s); simpl; [|done];
         destruct (createDatabase_throws s); simpl;
         by rewrite started_call, Nat.add_0_r).
  - unfold configNetwork. by rewrite Hi.
  - by rewrite started_call, Nat.add_0_r.
Qed.

(** C10.  After any sequence of calls from the module's initial state,
    [startNetwork] has been called at most once, and exactly once when the
    guard flag is set; from then on no call starts the network again, and
    the flag stays set. *)
Theorem startNetwork_at_most_once `{env : Env} (l : list Api) :
  (started (run l initial) ≤ 1)%nat
  ∧ (initCalled (run l initial) = true →
     started (run l initial) = 1%nat
     ∧ ∀ a : Api,
         started (step a (run l initial)).1 = 1%nat
         ∧ initCalled (step a (run l initial)).1 = true).
Proof.
  assert (guarded (run l initial)) as Hg by (by apply run_guarded).
  unfold guarded in Hg. split.
  - rewrite Hg. destruct (initCalled _); lia.
  - intros Hi. rewrite Hi in Hg. split; [done|]. intros a.
    destruct (step_keeps_initCalled a _ Hi) as [Hi' Hs].
    by rewrite Hs, Hg.
Qed.

Lemma startNetwork_at_most_once_witness :
  started (run (env := example_env) [Open; OpenSync] initial) = 1%nat
  ∧ ∀ a : Api,
      started (step (env := example_env) a
                 (run (env := example_env) [Open; OpenSync] initial)).1 = 1%nat
      ∧ initCalled (step (env := example_env) a
                      (run (env := example_env) [Open; OpenSync] initial)).1 = true.
Proof.
  apply (proj2 (@startNetwork_at_most_once example_env [Open; OpenSync])).
  reflexivity.
Defined.


(** * Further properties *)

(** ** The value marshaler, continued *)

Lemma StringParams_dtor_undoes_ctor `{host : Host} (keyVal : JsValue)
    (h h1 : heap) (p : StringParams) :
  StringParams_ctor keyVal h = Some (p, h1) →
  StringParams_dtor p h1 = Some (tt, h).
Proof.
  destruct keyVal; try done.
  - intros Hctor.
    apply StringParams_ctor_string_inv in Hctor as (bs & -> & ->).
    unfold StringParams_dtor, free. simpl. rewrite lookup_insert_eq.
    by rewrite delete_insert_id by apply fresh_block_free.
  - by intros [= <- <-].
Qed.

(** X1.  Within the scope of a parameter every block of the heap keeps its
    bytes, and the destructor undoes the constructor: after both the heap
    is the heap before, whether the parameter was an owned copy (its block
    is freed) or a view of a buffer (nothing is freed). *)
Theorem StringParams_scope_restores_heap `{host : Host} (keyVal : JsValue)
    (h h1 : heap) (p : StringParams) :
  StringParams_ctor keyVal h = Some (p, h1) →
  h ⊆ h1 ∧ StringParams_dtor p h1 = Some (tt, h).
Proof.
  intros Hctor. split.
  - by destruct (StringParams_ctor_owned _ _ _ _ Hctor).
  - by apply StringParams_dtor_undoes_ctor in Hctor.
Qed.

Lemma StringParams_scope_restores_heap_witness :
  example_heap ⊆ <[fresh (dom example_heap) := utf8_encoding [0x61]]> example_heap
  ∧ StringParams_dtor
      {| owned := true; str := (fresh (dom example_heap), 0);
         len := Utf8Length [0x61] |}
      (<[fresh (dom example_heap) := utf8_encoding [0x61]]> example_heap)
    = Some (tt, example_heap).
Proof.
  apply (@StringParams_scope_restores_heap example_host (JsString [0x61])).
  reflexivity.
Defined.

Lemma utf16_code_points_ascii (s : list Z) :
  Forall (λ c, 0 ≤ c < 0x80) s → utf16_code_points s = s.
Proof.
  induction 1 as [|c s Hc Hs IH]; [done|].
  cbn [utf16_code_points]. destruct s as [|d rest]; [done|].
  assert (is_lead_surrogate c = false) as ->.
  { unfold is_lead_surrogate. destruct (Z.leb_spec 0xD800 c); [lia|done]. }
  simpl andb. cbv iota. by rewrite IH.
Qed.

Lemma utf8_encoding_ascii (s : list Z) :
  Forall (λ c, 0 ≤ c < 0x80) s → utf8_encoding s = s.
Proof.
  intros Hs. unfold utf8_encoding. rewrite utf16_code_points_ascii by done.
  induction Hs as [|c s Hc Hs IH]; [done|]. simpl. rewrite IH.
  unfold utf8_encode_code_point.
  by destruct (Z.ltb_spec c 0x80); [|lia].
Qed.

(** X2.  A string of ASCII characters, as many as an [int] can count, is
    marshalled character for byte: the bytes under [(str, len)] are the
    code units of the string, a NUL character among them as a zero byte,
    and [len] is their number. *)
Theorem StringParams_ascii `{host : Host} (s : list Z) (h : heap) :
  Forall (λ c, 0 ≤ c < 0x80) s →
  Z.of_nat (length s) ≤ INT_MAX →
  ∃ p h', StringParams_ctor (JsString s) h = Some (p, h')
    ∧ len p = Z.of_nat (length s)
    ∧ view h' p = Some s.
Proof.
  intros Hs Hmax. eexists _, _. split.
  { apply StringParams_ctor_string. unfold Utf8Length.
    by rewrite utf8_encoding_ascii. }
  unfold view, Utf8Length. simpl. rewrite utf8_encoding_ascii by done.
  split; [done|]. apply load_block, lookup_insert_eq.
Qed.

(** Of a string of 2^31 ASCII characters the byte count is no [int] that
    is a size: the constructor does not return. *)
Example StringParams_ascii_2_31 :
  StringParams_ctor (host := example_host)
    (JsString (replicate (Z.to_nat (2 ^ 31)) 0x61)) example_heap = None.
Proof.
  assert (Utf8Length (replicate (Z.to_nat (2 ^ 31)) 0x61) = 2 ^ 31) as Hlen.
  { unfold Utf8Length. rewrite utf8_encoding_ascii.
    - rewrite length_replicate. apply Z2Nat.id. lia.
    - apply Forall_replicate. lia. }
  unfold StringParams_ctor. rewrite Hlen.
  assert (to_int32 (2 ^ 31) = - 2 ^ 31) as -> by reflexivity.
  unfold new_uint8_array. by case_decide; [lia|].
Qed.

Lemma StringParams_ascii_witness :
  ∃ p h', StringParams_ctor (host := example_host) (JsString [0x61; 0; 0x62])
            example_heap = Some (p, h')
    ∧ len p = 3
    ∧ view h' p = Some [0x61; 0; 0x62].
Proof.
  apply (@StringParams_ascii example_host [0x61; 0; 0x62] example_heap).
  - repeat constructor; lia.
  - unfold INT_MAX. simpl. lia.
Defined.

Lemma utf8_encode_code_point_length (cp : Z) :
  (1 ≤ length (utf8_encode_code_point cp) ≤ 4)%nat
  ∧ (cp < 0x10000 → (length (utf8_encode_code_point cp) ≤ 3)%nat)
  ∧ (0x10000 ≤ cp → length (utf8_encode_code_point cp) = 4%nat).
Proof.
  unfold utf8_encode_code_point.
  destruct (Z.ltb_spec cp 0x80); [|destruct (Z.ltb_spec cp 0x800);
    [|destruct (Z.ltb_spec cp 0x10000)]]; simpl; lia.
Qed.

Lemma utf8_encoding_length_bounds (s : list Z) :
  Forall (λ c, 0 ≤ c < 0x10000) s →
  (length s ≤ length (utf8_encoding s) ≤ 3 * length s)%nat.
Proof.
  assert (∀ n (s : list Z), (length s ≤ n)%nat →
            Forall (λ c, 0 ≤ c < 0x10000) s →
            (length s ≤ length (utf8_encoding s) ≤ 3 * length s)%nat) as Hn.
  { unfold utf8_encoding.
    induction n as [|n IH]; intros [|c [|d rest]] Hlen Hs; simpl in *;
      try lia.
    - apply Forall_inv in Hs.
      destruct (utf8_encode_code_point_length c) as (H1 & H3 & _).
      rewrite app_nil_r. specialize (H3 ltac:(lia)). lia.
    - inversion Hs as [|? ? Hc Hs']; subst.
      inversion Hs' as [|? ? Hd Hrest]; subst.
      destruct (is_lead_surrogate c && is_trail_surrogate d) eqn:Hpair.
      + apply andb_true_iff in Hpair as [Hl Ht].
        unfold is_lead_surrogate, is_trail_surrogate in *.
        simpl. rewrite length_app.
        destruct (utf8_encode_code_point_length
                    (65536 + (c - 55296) * 1024 + (d - 56320)))
          as (_ & _ & H4).
        rewrite H4 by lia.
        specialize (IH rest ltac:(lia) Hrest). lia.
      + simpl. rewrite length_app.
        destruct (utf8_encode_code_point_length c) as (H1 & H3 & _).
        specialize (H3 ltac:(lia)).
        specialize (IH (d :: rest) ltac:(simpl; lia) Hs'). simpl in IH. lia. }
  by apply (Hn (length s)).
Qed.

(** X3.  The copy made of a string of 16-bit code units, when an [int] can
    count its bytes, holds bytes, each between 0 and 255, at least one and
    at most three for each code unit of the string. *)
Theorem StringParams_string_size `{host : Host} (s : list Z) (h : heap) :
  Forall (λ c, 0 ≤ c < 0x10000) s →
  Utf8Length s ≤ INT_MAX →
  ∃ p h' bs, StringParams_ctor (JsString s) h = Some (p, h')
    ∧ view h' p = Some bs
    ∧ Forall (λ b, 0 ≤ b < 256) bs
    ∧ Z.of_nat (length s) ≤ len p ≤ 3 * Z.of_nat (length s).
Proof.
  intros Hs Hmax. eexists _, _, (utf8_encoding s).
  split; [by apply StringParams_ctor_string|].
  split; [|split].
  - unfold view, Utf8Length. simpl. apply load_block, lookup_insert_eq.
  - by apply utf8_encoding_bytes.
  - simpl. unfold Utf8Length.
    pose proof (utf8_encoding_length_bounds s Hs). lia.
Qed.

Lemma StringParams_string_size_witness :
  ∃ p h' bs, StringParams_ctor (host := example_host)
               (JsString [0x20AC; 0xD83D; 0xDE00]) example_heap = Some (p, h')
    ∧ view h' p = Some bs
    ∧ Forall (λ b, 0 ≤ b < 256) bs
    ∧ Z.of_nat 3 ≤ len p ≤ 3 * Z.of_nat 3.
Proof.
  apply (@StringParams_string_size example_host
           [0x20AC; 0xD83D; 0xDE00] example_heap).
  - repeat constructor; lia.
  - unfold INT_MAX. vm_compute. discriminate.
Defined.

(** ** The decode functions, continued *)

(** X4.  On a zero error code [getKey] returns a buffer over a block that
    was not in the heap, holding the bytes of the returned key region; the
    blocks of the heap are as they were. *)
Theorem getKey_copies_key (future : FDBFuture) (h : heap)
    (key : ptr) (keyLength : Z) (bs : list Z) :
  fdb_future_get_key future = (0, (key, keyLength)) →
  load h key keyLength = Some bs →
  keyLength ≤ kMaxLength →
  ∃ b h', getKey future h = Some ((b, 0), h')
    ∧ b = JsBuffer (fresh (dom h), 0) keyLength
    ∧ h !! fresh (dom h) = None
    ∧ h ⊆ h'
    ∧ buffer_bytes h' b = Some bs.
Proof.
  intros Hget Hload Hmax. unfold getKey. rewrite Hget. simpl.
  unfold mbind, M_bind. rewrite (CopyBuffer_copies _ _ _ _ Hload Hmax).
  eexists _, _. split; [reflexivity|]. split; [done|].
  split; [apply fresh_block_free|]. split; [apply alloc_extends|].
  simpl. rewrite <- (load_length _ _ _ _ Hload).
  apply load_block, lookup_insert_eq.
Qed.

Lemma getKey_copies_key_witness :
  ∃ b h', getKey (example_future 0 0 0) example_heap = Some ((b, 0), h')
    ∧ b = JsBuffer (fresh (dom example_heap), 0) 2
    ∧ example_heap !! fresh (dom example_heap) = None
    ∧ example_heap ⊆ h'
    ∧ buffer_bytes h' b = Some [0x6B; 0x31].
Proof.
  apply (getKey_copies_key (example_future 0 0 0) example_heap
           (1%positive, 0) 2 [0x6B; 0x31]).
  - reflexivity.
  - reflexivity.
  - unfold kMaxLength. lia.
Defined.

Lemma list_find_zero (bs rest : list Z) :
  Forall (λ b, b ≠ 0) bs →
  list_find (λ b, b = 0) (bs ++ 0 :: rest) = Some (length bs, 0).
Proof.
  induction 1 as [|b bs Hb Hbs IH]; [done|].
  cbn [app list_find length]. case_decide; [done|]. by rewrite IH.
Qed.

Lemma String_New_c_string `{host : Host} (h : heap) (p : ptr) (bs : list Z) :
  c_string h p bs →
  String_New p h = Some (JsString (String_NewFromUtf8 bs), h).
Proof.
  intros (blk & rest & Hblk & Hoff & Hdrop & Hnz & Hlen).
  assert (Z.to_nat p.2 + length bs < length blk)%nat as Hin.
  { assert (length (drop (Z.to_nat p.2) blk) = length (bs ++ 0 :: rest)) as Hl
      by (by rewrite Hdrop).
    rewrite length_drop, length_app in Hl. simpl in Hl. lia. }
  unfold String_New, strlen. rewrite Hblk.
  case_decide; [|lia]. rewrite Hdrop, (list_find_zero _ _ Hnz).
  rewrite to_int32_small by lia.
  unfold load. rewrite Hblk. case_decide; [|lia].
  by rewrite Hdrop, Nat2Z.id, take_app_length.
Qed.

Lemma getStringArray_loop_strings `{host : Host} (strings : Z → ptr)
    (strs : list (list Z)) (h : heap) :
  ∀ done : list JsValue,
    (∀ j bs, strs !! j = Some bs →
       c_string h (strings (Z.of_nat (length done + j))) bs) →
    getStringArray_loop (length strs) (Z.of_nat (length done)) strings
      (done ++ replicate (length strs) JsUndefined) h
    = Some (done ++ map (λ bs, JsString (String_NewFromUtf8 bs)) strs, h).
Proof.
  induction strs as [|bs strs IH]; intros done Hstr.
  - simpl. by rewrite !app_nil_r.
  - pose proof (Hstr 0%nat bs eq_refl) as Hhead.
    rewrite Nat.add_0_r in Hhead.
    cbn [length getStringArray_loop]. unfold mbind, M_bind.
    rewrite (String_New_c_string _ _ _ Hhead).
    rewrite Array_Set_next.
    replace (Z.of_nat (length done) + 1)
      with (Z.of_nat (length (done ++ [JsString (String_NewFromUtf8 bs)])))
      by (rewrite length_app; simpl; lia).
    rewrite IH.
    + simpl. by rewrite <- app_assoc.
    + intros j bs' Hj. rewrite length_app. simpl.
      replace (length done + 1 + j)%nat with (length done + S j)%nat by lia.
      by apply (Hstr (S j)).
Qed.

(** X5.  On a zero error code, when the native array holds [stringCount]
    zero-terminated strings, [getStringArray] returns an array of as many
    host strings, in the order of the array, each made from the bytes
    before the terminator; it changes no memory. *)
Theorem getStringArray_decodes `{host : Host} (future : FDBFuture) (h : heap)
    (strings : Z → ptr) (stringCount : Z) (strs : list (list Z)) :
  fdb_future_get_string_array future = (0, (strings, stringCount)) →
  stringCount = Z.of_nat (length strs) →
  (∀ i bs, strs !! i = Some bs → c_string h (strings (Z.of_nat i)) bs) →
  getStringArray future h
  = Some ((JsArray (map (λ bs, JsString (String_NewFromUtf8 bs)) strs), 0), h).
Proof.
  intros Hget -> Hstr. unfold getStringArray. rewrite Hget. simpl.
  unfold mbind, M_bind, Array_New. rewrite Nat2Z.id.
  pose proof (getStringArray_loop_strings strings strs h [] Hstr) as Hrun.
  simpl in Hrun. change (Z.of_nat 0) with 0 in Hrun. by rewrite Hrun.
Qed.

Lemma getStringArray_decodes_witness :
  getStringArray (host := example_host) (example_future 0 0 0) example_heap
  = Some ((JsArray [JsString [0x6B; 0x31]], 0), example_heap).
Proof.
  apply (@getStringArray_decodes example_host (example_future 0 0 0)
           example_heap (λ _, (1%positive, 0)) 1 [[0x6B; 0x31]]).
  - reflexivity.
  - reflexivity.
  - intros [|i] bs Hbs; simpl in Hbs; [|done]. injection Hbs as <-.
    exists [0x6B; 0x31; 0; 0x76], [0x76]. unfold INT_MAX. simpl.
    repeat split; try reflexivity; try lia.
    repeat constructor; lia.
Defined.

Lemma CopyBuffer_extends (data : ptr) (size : Z) (h h' : heap) (b : JsValue) :
  CopyBuffer data size h = Some (b, h') → h ⊆ h'.
Proof.
  unfold CopyBuffer. case_decide; [|done].
  destruct (load h data size); [|done].
  intros [= <- <-]. apply alloc_extends.
Qed.

Lemma getKeyValueList_loop_extends (kv : Z → FDBKeyValue) (n : nat) :
  ∀ (i : Z) (a a' : list JsValue) (h h' : heap),
    getKeyValueList_loop n i kv a h = Some (a', h') → h ⊆ h'.
Proof.
  induction n as [|n IH]; intros i a a' h h'; simpl.
  - by intros [= <- <-].
  - unfold mbind, M_bind.
    destruct (CopyBuffer _ _ h) as [[k h1]|] eqn:Hk; [|done].
    destruct (CopyBuffer _ _ h1) as [[v h2]|] eqn:Hv; [|done].
    intros Hrun. apply IH in Hrun.
    apply CopyBuffer_extends in Hk, Hv.
    etrans; [exact Hk|]. by etrans.
Qed.

Lemma getStringArray_loop_same_heap `{host : Host} (strings : Z → ptr) (n : nat) :
  ∀ (i : Z) (a a' : list JsValue) (h h' : heap),
    getStringArray_loop n i strings a h = Some (a', h') → h' = h.
Proof.
  induction n as [|n IH]; intros i a a' h h'; simpl.
  - by intros [= <- <-].
  - unfold mbind, M_bind, String_New.
    destruct (strlen h (strings i)) as [l|]; [|done].
    destruct (load h (strings i) (to_int32 l)); [|done].
    apply IH.
Qed.

(** X6.  No decode function frees or overwrites memory: whatever the
    future holds, when a decode function returns, every block of the heap
    is still there with the bytes it had. *)
Theorem decode_keeps_memory `{host : Host} (d : Decoder) (future : FDBFuture)
    (h h' : heap) (r : JsValue * Z) :
  decode d future h = Some (r, h') → h ⊆ h'.
Proof.
  destruct d; simpl.
  - unfold getValue. destruct (fdb_future_get_value future) as [e [[? ?] ?]].
    repeat case_decide; try by intros [= <- <-].
    unfold mbind, M_bind.
    destruct (CopyBuffer _ _ h) as [[b h1]|] eqn:Hb; [|done].
    intros [= <- <-]. by eapply CopyBuffer_extends.
  - unfold getKey. destruct (fdb_future_get_key future) as [e [? ?]].
    case_decide; try by intros [= <- <-].
    unfold mbind, M_bind.
    destruct (CopyBuffer _ _ h) as [[b h1]|] eqn:Hb; [|done].
    intros [= <- <-]. by eapply CopyBuffer_extends.
  - unfold getKeyValueList.
    destruct (fdb_future_get_keyvalue_array future) as [e [[kv n] more]].
    case_decide; try by intros [= <- <-].
    unfold mbind, M_bind.
    destruct (getKeyValueList_loop _ _ _ _ h) as [[a h1]|] eqn:Hl; [|done].
    intros [= <- <-]. by eapply getKeyValueList_loop_extends.
  - unfold getStringArray.
    destruct (fdb_future_get_string_array future) as [e [strings n]].
    case_decide; try by intros [= <- <-].
    unfold mbind, M_bind.
    destruct (getStringArray_loop _ _ _ _ h) as [[a h1]|] eqn:Hl; [|done].
    intros [= <- <-]. by rewrite (getStringArray_loop_same_heap _ _ _ _ _ _ _ Hl).
  - unfold getVersion. destruct (fdb_future_get_version future) as [e ?].
    by case_decide; intros [= <- <-].
Qed.

Lemma decode_keeps_memory_witness :
  example_heap ⊆ <[fresh (dom example_heap) := [0x6B; 0x31]]> example_heap.
Proof.
  apply (@decode_keeps_memory example_host DKey (example_future 0 0 0)
           example_heap _
           (JsBuffer (fresh (dom example_heap), 0) 2, 0)).
  reflexivity.
Defined.

(** ** The verbs, continued *)

Lemma arg_bytes_mono (h h' : heap) (v : JsValue) (bs : list Z) :
  h ⊆ h' → arg_bytes h v = Some bs → arg_bytes h' v = Some bs.
Proof.
  intros Hsub. destruct v; simpl; try done. by apply load_mono.
Qed.

(** Marshalling an argument whose bytes an [int] can count: the parameter
    views those bytes. *)
Lemma StringParams_ctor_arg_bytes `{host : Host} (v : JsValue) (h : heap)
    (bs : list Z) :
  arg_bytes h v = Some bs →
  Z.of_nat (length bs) ≤ INT_MAX →
  ∃ p h1, StringParams_ctor v h = Some (p, h1)
    ∧ h ⊆ h1
    ∧ len p = Z.of_nat (length bs)
    ∧ load h1 (str p) (Z.of_nat (length bs)) = Some bs.
Proof.
  destruct v; simpl; try done.
  - intros [= <-] Hmax. eexists _, _.
    split; [by apply StringParams_ctor_string|].
    split; [apply alloc_extends|]. split; [done|].
    simpl. apply load_block, lookup_insert_eq.
  - intros Hload Hmax.
    pose proof (load_length _ _ _ _ Hload) as Hlen.
    eexists _, _. split; [reflexivity|]. split; [done|]. simpl.
    rewrite to_int32_small by lia. split; [done|]. by rewrite Hlen.
Qed.

(** X7.  [set] with a key and a value that are strings or buffers, each of
    a number of bytes that an [int] can count, calls [fdb_transaction_set]
    with pointers and lengths under which the bytes of the key and of the
    value lie, then returns undefined with the heap as it was before the
    call. *)
Theorem Transaction_Set_passes_bytes `{host : Host} {N} `{verbs : FdbC_verbs N}
    (tr : FDBTransaction) (info : list JsValue) (h : heap) (n : N)
    (kb vb : list Z) :
  arg_bytes h (arg info 0) = Some kb →
  Z.of_nat (length kb) ≤ INT_MAX →
  arg_bytes h (arg info 1) = Some vb →
  Z.of_nat (length vb) ≤ INT_MAX →
  ∃ pk pv h2,
    h ⊆ h2
    ∧ load h2 pk (Z.of_nat (length kb)) = Some kb
    ∧ load h2 pv (Z.of_nat (length vb)) = Some vb
    ∧ Transaction_Set tr info (h, n)
      = Some (Normal JsUndefined,
              (h, fdb_transaction_set tr pk (Z.of_nat (length kb))
                    pv (Z.of_nat (length vb)) h2 n)).
Proof.
  intros Hk Hkmax Hv Hvmax.
  destruct (StringParams_ctor_arg_bytes _ _ _ Hk Hkmax)
    as (key & h1 & Ekey & Hsub1 & Hlk & Hloadk).
  destruct (StringParams_ctor_arg_bytes _ _ _
              (arg_bytes_mono _ _ _ _ Hsub1 Hv) Hvmax)
    as (val & h2 & Eval & Hsub2 & Hlv & Hloadv).
  exists (str key), (str val), h2.
  split; [by etrans|]. split; [by eapply load_mono|]. split; [done|].
  unfold Transaction_Set, on_heap, native_void, mbind, M_bind. simpl.
  rewrite Ekey. simpl. rewrite Eval. simpl.
  rewrite (StringParams_dtor_undoes_ctor _ _ _ _ Eval). simpl.
  rewrite (StringParams_dtor_undoes_ctor _ _ _ _ Ekey). simpl.
  by rewrite Hlk, Hlv.
Qed.

Lemma Transaction_Set_passes_bytes_witness :
  ∃ pk pv h2,
    example_heap ⊆ h2
    ∧ load h2 pk (Z.of_nat 2) = Some [0x61; 0]
    ∧ load h2 pv (Z.of_nat 1) = Some [0x76]
    ∧ Transaction_Set (host := example_host) (verbs := example_verbs)
        1%positive [JsString [0x61; 0]; JsBuffer (1%positive, 3) 1]
        (example_heap, 0)
      = Some (Normal JsUndefined,
              (example_heap,
               fdb_transaction_set (FdbC_verbs := example_verbs) 1%positive
                 pk (Z.of_nat 2) pv (Z.of_nat 1) h2 0)).
Proof.
  apply (@Transaction_Set_passes_bytes example_host Z example_verbs
           1%positive [JsString [0x61; 0]; JsBuffer (1%positive, 3) 1]
           example_heap 0 [0x61; 0] [0x76]);
    first [reflexivity | unfold INT_MAX; simpl; lia].
Defined.

(** X8.  [get] with a key that is a string or a buffer, of a number of
    bytes that an [int] can count, calls [fdb_transaction_get] with a
    pointer and a length under which the bytes of the key lie and with the
    truth of its second argument as snapshot flag; it returns the pending
    operation of the future of that call, to be decoded by [getValue],
    with the heap as it was before the call. *)
Theorem Transaction_Get_passes_key `{host : Host} {N} `{client : FdbC N}
    (tr : FDBTransaction) (info : list JsValue) (h : heap) (n : N)
    (kb : list Z) :
  arg_bytes h (arg info 0) = Some kb →
  Z.of_nat (length kb) ≤ INT_MAX →
  ∃ pk h1,
    h ⊆ h1
    ∧ load h1 pk (Z.of_nat (length kb)) = Some kb
    ∧ let call := fdb_transaction_get tr pk (Z.of_nat (length kb))
                    (BooleanValue (arg info 1)) h1 n in
      Transaction_Get tr info (h, n)
      = Some (Pending (futureToJS call.1 (arg info 2) getValue), (h, call.2)).
Proof.
  intros Hk Hkmax.
  destruct (StringParams_ctor_arg_bytes _ _ _ Hk Hkmax)
    as (key & h1 & Ekey & Hsub1 & Hlk & Hloadk).
  exists (str key), h1. split; [done|]. split; [done|].
  unfold Transaction_Get, on_heap, native, mbind, M_bind. simpl.
  rewrite Ekey. simpl. rewrite Hlk.
  destruct (fdb_transaction_get _ _ _ _ _ _) as [f n']. simpl.
  by rewrite (StringParams_dtor_undoes_ctor _ _ _ _ Ekey).
Qed.

Lemma Transaction_Get_passes_key_witness :
  ∃ pk h1,
    example_heap ⊆ h1
    ∧ load h1 pk (Z.of_nat 2) = Some [0x6B; 0x31]
    ∧ let call := fdb_transaction_get (FdbC := example_client) 1%positive pk
                    (Z.of_nat 2)
                    (BooleanValue (arg [JsBuffer (1%positive, 0) 2] 1))
                    h1 0 in
      Transaction_Get (host := example_host) (client := example_client)
        1%positive [JsBuffer (1%positive, 0) 2] (example_heap, 0)
      = Some (Pending (futureToJS call.1 (arg [JsBuffer (1%positive, 0) 2] 2)
                         getValue),
              (example_heap, call.2)).
Proof.
  apply (@Transaction_Get_passes_key example_host Z example_client 1%positive
           [JsBuffer (1%positive, 0) 2] example_heap 0 [0x6B; 0x31]).
  - reflexivity.
  - unfold INT_MAX. simpl. lia.
Defined.

(** X9.  [getRange] with selectors whose keys are strings or buffers, each
    of a number of bytes that an [int] can count, calls
    [fdb_transaction_get_range] with pointers and lengths under which the
    bytes of the start key and of the end key lie, and with its other
    arguments converted, 0 for one whose conversion throws.  The heap is
    left as it was before the call.  When no conversion throws it returns
    the pending operation of the future of that call, to be decoded by
    [getKeyValueList]; otherwise the exception thrown last is thrown to the
    script. *)
Theorem Transaction_GetRange_passes_keys `{host : Host} `{conv : V8Convert}
    {N} `{verbs : FdbC_verbs N}
    (tr : FDBTransaction) (info : list JsValue) (h : heap) (n : N)
    (sb eb : list Z) :
  arg_bytes h (arg info 0) = Some sb →
  Z.of_nat (length sb) ≤ INT_MAX →
  arg_bytes h (arg info 3) = Some eb →
  Z.of_nat (length eb) ≤ INT_MAX →
  ∃ ps pe h2,
    h ⊆ h2
    ∧ load h2 ps (Z.of_nat (length sb)) = Some sb
    ∧ load h2 pe (Z.of_nat (length eb)) = Some eb
    ∧ let call :=
        fdb_transaction_get_range tr
          ps (Z.of_nat (length sb))
          (Z.b2z (BooleanValue (arg info 1))) (Int32Value (arg info 2)).1
          pe (Z.of_nat (length eb))
          (Z.b2z (BooleanValue (arg info 4))) (Int32Value (arg info 5)).1
          (Int32Value (arg info 6)).1 (Int32Value (arg info 7)).1
          (Int32Value (arg info 8)).1 (Int32Value (arg info 9)).1
          (BooleanValue (arg info 10)) (BooleanValue (arg info 11)) h2 n in
      Transaction_GetRange tr info (h, n)
      = Some (match scheduled (method_conversions GetRange info) with
              | Some e => Throw e
              | None =>
                  Pending (futureToJS call.1 (arg info 12) getKeyValueList)
              end,
              (h, call.2)).
Proof.
  intros Hs Hsmax He Hemax.
  destruct (StringParams_ctor_arg_bytes _ _ _ Hs Hsmax)
    as (start & h1 & Estart & Hsub1 & Hls & Hloads).
  destruct (StringParams_ctor_arg_bytes _ _ _
              (arg_bytes_mono _ _ _ _ Hsub1 He) Hemax)
    as (end_ & h2 & Eend & Hsub2 & Hle & Hloade).
  exists (str start), (str end_), h2.
  split; [by etrans|]. split; [by eapply load_mono|]. split; [done|].
  unfold Transaction_GetRange, on_heap, native, mbind, M_bind.
  cbn [fst snd]. rewrite Estart. cbn [fst snd]. rewrite Eend. cbn [fst snd].
  rewrite Hls, Hle.
  destruct (fdb_transaction_get_range _ _ _ _ _ _ _ _ _ _ _ _ _ _ _ _ _)
    as [f n']. cbn [fst snd].
  rewrite (StringParams_dtor_undoes_ctor _ _ _ _ Eend). cbn [fst snd].
  by rewrite (StringParams_dtor_undoes_ctor _ _ _ _ Estart).
Qed.

Lemma Transaction_GetRange_passes_keys_witness :
  ∃ ps pe h2,
    example_heap ⊆ h2
    ∧ load h2 ps (Z.of_nat 1) = Some [0x61]
    ∧ load h2 pe (Z.of_nat 1) = Some [0x62]
    ∧ Transaction_GetRange (host := example_host) (conv := example_conv)
        (verbs := example_verbs) 1%positive
        [JsString [0x61]; JsBoolean true; JsNumber 0;
         JsString [0x62]; JsBoolean true; JsNumber 0] (example_heap, 0)
      = Some (Pending (futureToJS 1%positive JsUndefined getKeyValueList),
              (example_heap, 0)).
Proof.
  apply (@Transaction_GetRange_passes_keys example_host example_conv Z
           example_verbs 1%positive
           [JsString [0x61]; JsBoolean true; JsNumber 0;
            JsString [0x62]; JsBoolean true; JsNumber 0]
           example_heap 0 [0x61] [0x62]);
    first [reflexivity | unfold INT_MAX; simpl; lia].
Defined.

(** [getRange] with a limit whose conversion throws: the native call is
    made all the same, and the exception reaches the script. *)
Example Transaction_GetRange_limit_throws :
  Transaction_GetRange (host := example_host) (conv := example_conv)
    (verbs := example_verbs) 1%positive
    [JsString [0x61]; JsBoolean true; JsNumber 0;
     JsString [0x62]; JsBoolean true; JsNumber 0; JsNull] (example_heap, 0)
  = Some (Throw JsNull, (example_heap, 0)).
Proof. reflexivity. Qed.

Lemma StringParams_ctor_is_bytes `{host : Host} (v : JsValue) (h h1 : heap)
    (p : StringParams) :
  StringParams_ctor v h = Some (p, h1) → is_bytes v = true.
Proof. by destruct v. Qed.

(** One marshalled parameter of a verb: its constructor either fails, and
    the verb with it, or was given a string or a buffer and gives a
    parameter whose destructor restores the heap. *)
Ltac marshal_param :=
  match goal with
  | |- context [StringParams_ctor ?v ?h] =>
      let p := fresh "p" in
      let h' := fresh "h" in
      let E := fresh "E" in
      let B := fresh "B" in
      destruct (StringParams_ctor v h) as [[p h']|] eqn:E; cbn [fst snd];
      [|done];
      pose proof (StringParams_ctor_is_bytes _ _ _ _ E) as B;
      apply StringParams_dtor_undoes_ctor in E
  end.

Ltac native_result :=
  match goal with
  | |- context [match ?call with (_, _) => _ end] =>
      let r := fresh "r" in
      let n' := fresh "n" in
      destruct call as [r n']; cbn [fst snd]
  end.

Ltac end_scope :=
  match goal with
  | E : StringParams_dtor ?p ?h = Some _ |- context [StringParams_dtor ?p ?h] =>
      rewrite E; cbn [fst snd]; clear E
  end.

(** One marshalled parameter of a verb whose argument has bytes that an
    [int] can count: its constructor returns. *)
Ltac marshal_bytes :=
  match goal with
  | Hb : arg_bytes ?h0 ?v = Some ?bs, Hmax : Z.of_nat (length ?bs) ≤ INT_MAX
    |- context [StringParams_ctor ?v ?h1] =>
      let Hb' := fresh "Hb" in
      let E := fresh "E" in
      assert (arg_bytes h1 v = Some bs) as Hb'
        by first [exact Hb | eapply arg_bytes_mono; [|exact Hb]; eassumption];
      destruct (StringParams_ctor_arg_bytes v h1 bs Hb' Hmax)
        as (? & ? & E & ? & _ & _);
      rewrite E; cbn [fst snd];
      apply StringParams_dtor_undoes_ctor in E; clear Hb Hb'
  end.

(** X10.  A method returns when each argument that it marshals as bytes is
    a string, or a buffer over readable memory, of a number of bytes that
    an [int] can count; and it returns only when each such argument is a
    string or a buffer, any other value there making the process abort.
    When a method returns, the heap is exactly as it was before the call,
    whatever the client answers: no marshalled copy is left behind and no
    buffer of the caller is freed or written.  When a conversion of an
    argument to a number has thrown, the exception thrown last is thrown to
    the script.  Otherwise a method that hands a decode function to the
    bridge returns a pending operation holding that function; of the
    others, only the three that check a native error code can throw, and
    the rest return undefined. *)
Theorem Transaction_method_leaves_heap `{host : Host} `{conv : V8Convert}
    {N} `{client : FdbC N} `{verbs : FdbC_verbs N}
    (m : Method) (tr : FDBTransaction) (info : list JsValue)
    (h : heap) (n : N) :
  (Forall (λ i, ∃ bs, arg_bytes h (arg info i) = Some bs
                  ∧ Z.of_nat (length bs) ≤ INT_MAX) (method_byte_args m) →
   ∃ r w', Transaction_method m tr info (h, n) = Some (r, w'))
  ∧ ∀ (r : Returned) (w' : heap * N),
      Transaction_method m tr info (h, n) = Some (r, w') →
      w'.1 = h
      ∧ Forall (λ i, is_bytes (arg info i) = true) (method_byte_args m)
      ∧ match scheduled (method_conversions m info) with
        | Some e => r = Throw e
        | None =>
            match method_decoder m with
            | Some d => ∃ p, r = Pending p ∧ po_extract p = d
            | None =>
                if method_can_throw m
                then (∃ e, e ≠ 0 ∧ r = Throw (FdbError_NewInstance e))
                     ∨ (∃ x, r = Normal x)
                else r = Normal JsUndefined
            end
        end.
Proof.
  split; [intros HF|intros r w'];
    destruct m; cbn [Transaction_method method_byte_args method_conversions
                     method_decoder method_can_throw] in *;
    unfold Transaction_Commit, Transaction_Reset, Transaction_Cancel,
      Transaction_OnError, Transaction_Get, Transaction_GetKey,
      Transaction_Set, Transaction_Clear, Transaction_AtomicOp,
      Transaction_GetRange, Transaction_ClearRange,
      Transaction_SetReadVersion, Transaction_GetReadVersion,
      Transaction_GetCommittedVersion, Transaction_GetVersionStamp,
      Transaction_GetAddressesForKey, Transaction_AddReadConflictRange,
      Transaction_AddWriteConflictRange, Transaction_AddConflictRange,
      return_to_script, on_heap, native, native_void, mbind, M_bind,
      mret, M_ret; cbn [fst snd].
  1-18: repeat (apply Forall_cons in HF as [(? & ? & ?) HF]); clear HF;
    repeat marshal_bytes; repeat native_result; repeat end_scope;
    try case_decide; by eauto.
  all: repeat marshal_param; repeat native_result; repeat end_scope;
    try case_decide; intros [= <- <-]; cbn [fst snd];
    (split; [done|]); (split; [by once (repeat constructor)|]);
    try change (scheduled []) with (@None JsValue); cbv beta iota;
    try match goal with
        | |- context [scheduled ?l] => destruct (scheduled l)
        end;
    first [by eauto | left; by eauto | right; by eauto].
Qed.

Lemma Transaction_method_leaves_heap_witness :
  (∃ r w', Transaction_method (host := example_host) (conv := example_conv)
             (client := example_client) (verbs := example_verbs) GetKey
             1%positive [JsString [0x61]; JsNumber 1; JsNull] (example_heap, 0)
           = Some (r, w'))
  ∧ (example_heap, 0).1 = example_heap
  ∧ Forall (λ i, is_bytes (arg [JsString [0x61]; JsNumber 1; JsNull] i) = true)
      (method_byte_args GetKey)
  ∧ match scheduled (method_conversions (conv := example_conv) GetKey
                       [JsString [0x61]; JsNumber 1; JsNull]) with
    | Some e => Throw JsNull = Throw e
    | None =>
        match method_decoder (host := example_host) GetKey with
        | Some d => ∃ p, Throw JsNull = Pending p ∧ po_extract p = d
        | None =>
            if method_can_throw GetKey
            then (∃ e, e ≠ 0 ∧ Throw JsNull = Throw (FdbError_NewInstance e))
                 ∨ (∃ x, Throw JsNull = Normal x)
            else Throw JsNull = Normal JsUndefined
        end
    end.
Proof.
  pose proof (@Transaction_method_leaves_heap example_host example_conv Z
                example_client example_verbs GetKey 1%positive
                [JsString [0x61]; JsNumber 1; JsNull] example_heap 0)
    as [Hreturns Hreturned].
  split.
  - apply Hreturns. repeat constructor. exists [0x61].
    split; [reflexivity|]. unfold INT_MAX. simpl. lia.
  - apply Hreturned. reflexivity.
Defined.

(** [get] with a number for key: the process aborts. *)
Example Transaction_Get_number_aborts :
  Transaction_Get (host := example_host) (client := example_client)
    1%positive [JsNumber 5] (example_heap, 0) = None.
Proof. reflexivity. Qed.

(** ** Versions, continued *)

(** X11.  Whatever 64-bit version the client answers with, [getVersion]
    and [getCommittedVersion] hand the host a number, with no error, that
    is at most 512 away from the version. *)
Theorem version_within_512 {N} `{client : FdbC N} (v : Z) :
  - 2 ^ 63 ≤ v < 2 ^ 63 →
  (∀ (future : FDBFuture) (h : heap),
     fdb_future_get_version future = (0, v) →
     ∃ d, getVersion future h = Some ((JsNumber d, 0), h)
       ∧ Z.abs (d - v) ≤ 512)
  ∧ (∀ (tr : FDBTransaction) (info : list JsValue) (h : heap) (n n' : N),
       fdb_transaction_get_committed_version tr h n = ((0, v), n') →
       ∃ d, Transaction_GetCommittedVersion tr info (h, n)
            = Some (Normal (JsNumber d), (h, n'))
         ∧ Z.abs (d - v) ≤ 512).
Proof.
  intros Hv. split.
  - intros future h Hget. exists (int64_to_double v).
    split; [|by apply int64_to_double_near].
    unfold getVersion. rewrite Hget. by case_decide.
  - intros tr info h n n' Hget. exists (int64_to_double v).
    split; [|by apply int64_to_double_near].
    unfold Transaction_GetCommittedVersion, native, mbind, M_bind. simpl.
    rewrite Hget. by case_decide.
Qed.

Lemma version_within_512_witness :
  ∃ d, getVersion (example_future 0 0 (2 ^ 63 - 1)) example_heap
       = Some ((JsNumber d, 0), example_heap)
    ∧ Z.abs (d - (2 ^ 63 - 1)) ≤ 512.
Proof.
  apply (proj1 (@version_within_512 Z example_client (2 ^ 63 - 1)
                  ltac:(lia))).
  reflexivity.
Defined.

(** ** The watch handle, continued *)

(** X12.  [cancel] touches nothing but the future of its own watch: the
    callbacks, with their reference counts, and every other future are as
    before, and a future that was ready keeps its result. *)
Theorem Watch_Cancel_frame (watch : Watch) (w w' : WatchWorld) :
  Watch_Cancel watch w = Some (tt, w') →
  callbacks w' = callbacks w
  ∧ (∀ f err, futures w !! f = Some (FutureReady err) →
       futures w' !! f = Some (FutureReady err))
  ∧ (∀ cb c, callback watch = Some cb → callbacks w !! cb = Some c →
       ∀ f', getFuture c ≠ Some f' → futures w' !! f' = futures w !! f').
Proof.
  unfold Watch_Cancel.
  destruct (callback watch) as [cb|]; [|by intros [= <-]].
  destruct (callbacks w !! cb) as [c|] eqn:Hc; [|done].
  destruct (getFuture c) as [f|] eqn:Hf; [|by intros [= <-]].
  unfold fdb_future_cancel.
  destruct (futures w !! f) as [[|e]|] eqn:Hst; [| |done]; intros [= <-];
    [|done].
  simpl. split; [done|]. split.
  - intros f0 err Hready. rewrite lookup_insert_ne; [done|].
    intros <-. discriminate (eq_trans (eq_sym Hst) Hready).
  - intros cb' c' [= <-] Hc' f' Hne.
    pose proof (eq_trans (eq_sym Hc) Hc') as [= <-].
    rewrite lookup_insert_ne; [done|]. intros <-. by apply Hne.
Qed.

Lemma Watch_Cancel_frame_witness :
  callbacks {| callbacks := callbacks example_world;
               futures := <[5%positive := FutureReady operation_cancelled]>
                            (futures example_world) |}
  = callbacks example_world.
Proof.
  apply (proj1 (Watch_Cancel_frame example_watch example_world _ eq_refl)).
Defined.

(** X13.  A watch made by [Watch::NewInstance] on a callback with a pending
    future holds one more reference to the callback, and its [cancel] makes
    that future ready with [operation_cancelled]. *)
Theorem Watch_NewInstance_then_Cancel (cb : positive) (c : NodeCallback)
    (f : FDBFuture_ptr) (w : WatchWorld) :
  callbacks w !! cb = Some c →
  getFuture c = Some f →
  futures w !! f = Some FuturePending →
  ∃ watch w1 w2,
    Watch_NewInstance cb w = Some (watch, w1)
    ∧ callbacks w1 !! cb
      = Some {| future := Some f; refCount := refCount c + 1 |}
    ∧ Watch_Cancel watch w1 = Some (tt, w2)
    ∧ futures w2 !! f = Some (FutureReady operation_cancelled)
    ∧ callbacks w2 = callbacks w1.
Proof.
  intros Hc Hf Hst. unfold getFuture in Hf.
  unfold Watch_NewInstance, addRef, mbind, M_bind. rewrite Hc. simpl.
  eexists _, _, _. split; [reflexivity|]. simpl.
  rewrite lookup_insert_eq, Hf. split; [done|].
  unfold Watch_Cancel, fdb_future_cancel. simpl.
  rewrite lookup_insert_eq. simpl. rewrite Hst.
  split; [reflexivity|]. simpl. by rewrite lookup_insert_eq.
Qed.

Lemma Watch_NewInstance_then_Cancel_witness :
  ∃ watch w1 w2,
    Watch_NewInstance 3%positive example_world = Some (watch, w1)
    ∧ callbacks w1 !! 3%positive
      = Some {| future := Some 5%positive; refCount := 2 + 1 |}
    ∧ Watch_Cancel watch w1 = Some (tt, w2)
    ∧ futures w2 !! 5%positive = Some (FutureReady operation_cancelled)
    ∧ callbacks w2 = callbacks w1.
Proof.
  apply (Watch_NewInstance_then_Cancel 3%positive
           {| future := Some 5%positive; refCount := 2 |} 5%positive
           example_world); reflexivity.
Defined.

(** ** Opening a database, continued *)

Lemma started_zero (s : State) : started s = 0%nat → startNetwork ∉ calls s.
Proof.
  unfold started. intros Hlen. apply length_zero_iff_nil in Hlen.
  by eapply filter_nil_not_elem_of.
Qed.

Lemma started_elem (s : State) : startNetwork ∈ calls s → (0 < started s)%nat.
Proof.
  unfold started. intros Hin.
  assert (startNetwork ∈ filter (λ c, c = startNetwork) (calls s)) as Hf
    by (by apply list_elem_of_filter).
  destruct (filter _ (calls s)); [by apply not_elem_of_nil in Hf|simpl; lia].
Qed.

Lemma init_returns_initCalled `{env : Env} (s : State) :
  (init s).2 = Returns → initCalled (init s).1 = true.
Proof.
  unfold init. destruct (apiVersion_get s); [|done].
  destruct (initCalled s) eqn:Hi; [done|].
  by destruct (startNetwork_throws _).
Qed.

Lemma run_keeps_initCalled `{env : Env} (l : list Api) (s : State) :
  initCalled s = true → initCalled (run l s) = true.
Proof.
  revert s. induction l as [|a l IH]; intros s Hi; [done|].
  simpl. apply IH. by apply step_keeps_initCalled.
Qed.

(** X14.  Once an [open] has got past [init], [configNetwork] throws from
    then on, whatever calls come between, and makes no native call. *)
Theorem configNetwork_throws_after_open `{env : Env} (s : State)
    (l : list Api) (netOpts : list (Z * Z)) :
  (init s).2 = Returns →
  configNetwork netOpts (run l (open s).1) = (run l (open s).1, Throws).
Proof.
  intros Hinit. unfold configNetwork.
  rewrite run_keeps_initCalled; [done|].
  pose proof (init_returns_initCalled s Hinit) as Hi.
  unfold open. destruct (init s) as [s' []]; simpl in *; [|done].
  by destruct (createDatabase_throws s').
Qed.

Lemma configNetwork_throws_after_open_witness :
  configNetwork (env := example_env) [(1, 2)]
    (run (env := example_env) [StopNetworkSync]
       (open (env := example_env) initial).1)
  = (run (env := example_env) [StopNetworkSync]
       (open (env := example_env) initial).1, Throws).
Proof.
  apply (@configNetwork_throws_after_open example_env initial
           [StopNetworkSync] [(1, 2)]).
  reflexivity.
Defined.

(** The exit handler is registered with the call of [startNetwork]. *)
Lemma init_exit_handlers `{env : Env} (s : State) :
  (exit_handlers s ≤ started s)%nat →
  (exit_handlers (init s).1 ≤ started (init s).1)%nat.
Proof.
  unfold init. intros Hle. destruct (apiVersion_get s); [|done].
  destruct (initCalled s); [done|].
  destruct (startNetwork_throws _); simpl.
  - rewrite started_call. change (started (set_initCalled s)) with (started s).
    simpl. lia.
  - change (started (process_on_exit (call startNetwork (set_initCalled s))))
      with (started (call startNetwork (set_initCalled s))).
    rewrite started_call. change (started (set_initCalled s)) with (started s).
    case_decide; [lia|done].
Qed.

Lemma eachOption_exit_handlers `{env : Env} (netOpts : list (Z * Z)) (s : State) :
  (exit_handlers s ≤ started s)%nat →
  (exit_handlers (eachOption netOpts s).1 ≤ started (eachOption netOpts s).1)%nat.
Proof.
  revert s. induction netOpts as [|[code val] rest IH]; intros s Hle; [done|].
  simpl.
  assert (exit_handlers (call (setNetworkOption code val) s)
          ≤ started (call (setNetworkOption code val) s))%nat as Hle'
    by (rewrite started_call; simpl; lia).
  destruct (setNetworkOption_throws s); [done|]. by apply IH.
Qed.

Lemma step_exit_handlers `{env : Env} (a : Api) (s : State) :
  (exit_handlers s ≤ started s)%nat →
  (exit_handlers (step a s).1 ≤ started (step a s).1)%nat.
Proof.
  intros Hle.
  assert (exit_handlers (open s).1 ≤ started (open s).1)%nat as Hopen.
  { apply init_exit_handlers in Hle. unfold open.
    destruct (init s) as [s' []]; simpl in *; [|done].
    destruct (createDatabase_throws s'); simpl; rewrite started_call;
      simpl; lia. }
  destruct a; simpl; try done.
  - unfold configNetwork. destruct (initCalled s); [done|].
    by apply eachOption_exit_handlers.
  - rewrite started_call. simpl. lia.
Qed.

(** X15.  After any sequence of calls from the module's initial state at
    most one exit handler is registered, and only when [startNetwork] was
    called: [stopNetwork] is never run at exit for a network that was not
    started, nor twice. *)
Theorem exit_handler_at_most_once `{env : Env} (l : list Api) :
  (exit_handlers (run l initial) ≤ started (run l initial))%nat
  ∧ (exit_handlers (run l initial) ≤ 1)%nat.
Proof.
  assert (∀ s, (exit_handlers s ≤ started s)%nat →
               (exit_handlers (run l s) ≤ started (run l s))%nat) as Hrun.
  { induction l as [|a l IH]; intros s Hle; [done|].
    simpl. by apply IH, step_exit_handlers. }
  pose proof (Hrun initial ltac:(done)) as Hle.
  split; [done|].
  pose proof (run_guarded l initial ltac:(done)) as Hg. unfold guarded in Hg.
  destruct (initCalled (run l initial)); lia.
Qed.

Lemma snoc_split {A} (l l1 l2 : list A) (c x : A) :
  l ++ [c] = l1 ++ x :: l2 →
  (l2 = [] ∧ l1 = l ∧ x = c) ∨ ∃ l2', l2 = l2' ++ [c] ∧ l = l1 ++ x :: l2'.
Proof.
  destruct l2 as [|y l2 _] using rev_ind.
  - intros Heq. left. apply app_inj_tail in Heq as [-> ->]. done.
  - intros Heq. right. exists l2.
    rewrite app_comm_cons, app_assoc in Heq.
    apply app_inj_tail in Heq as [-> ->]. done.
Qed.

Lemma start_separates_snoc (l : list NativeCall) (c : NativeCall) :
  start_separates l →
  c ≠ startNetwork →
  (∀ code val, c = setNetworkOption code val → startNetwork ∉ l) →
  start_separates (l ++ [c]).
Proof.
  intros Hsep Hc Hopt l1 l2 Heq.
  apply snoc_split in Heq as [(_ & _ & Hx) | (l2' & -> & ->)]; [done|].
  destruct (Hsep l1 l2' eq_refl) as [Hdb Hno]. split; [done|].
  intros code val Hin. apply elem_of_app in Hin as [Hin|Hin].
  - by apply (Hno code val).
  - apply list_elem_of_singleton in Hin.
    apply (Hopt code val); [done|].
    apply elem_of_app. right. by left.
Qed.

Lemma start_separates_start (l : list NativeCall) :
  startNetwork ∉ l → createDatabase ∉ l →
  start_separates (l ++ [startNetwork]).
Proof.
  intros Hstart Hdb l1 l2 Heq.
  apply snoc_split in Heq as [(-> & -> & _) | (l2' & -> & ->)].
  - split; [done|]. intros code val. apply not_elem_of_nil.
  - exfalso. apply Hstart, elem_of_app. right. by left.
Qed.

Lemma ordered_call (c : NativeCall) (s : State) :
  ordered s →
  c ≠ startNetwork →
  (c = createDatabase → initCalled s = true) →
  (∀ code val, c = setNetworkOption code val → initCalled s = false) →
  ordered (call c s).
Proof.
  intros (Hg & Hsep & Hdb) Hc Hcdb Hopt. split; [|split].
  - unfold guarded in *. rewrite started_call. simpl.
    case_decide; [done|]. lia.
  - simpl. apply start_separates_snoc; [done..|].
    intros code val ->. apply started_zero. unfold guarded in Hg.
    by rewrite Hg, (Hopt code val eq_refl).
  - simpl. intros Hin. apply elem_of_app in Hin as [Hin|Hin]; [by apply Hdb|].
    apply list_elem_of_singleton in Hin. by apply Hcdb.
Qed.

Lemma init_ordered `{env : Env} (s : State) : ordered s → ordered (init s).1.
Proof.
  intros Ho. pose proof Ho as (Hg & Hsep & Hdb).
  assert (guarded (init s).1) as Hg' by (by apply init_guarded).
  revert Hg'. unfold init. destruct (apiVersion_get s); [|done].
  destruct (initCalled s) eqn:Hi; [done|].
  assert (start_separates (calls s ++ [startNetwork])) as Hsep'.
  { apply start_separates_start.
    - apply started_zero. unfold guarded in Hg. by rewrite Hg, Hi.
    - intros Hin. apply Hdb in Hin. congruence. }
  by destruct (startNetwork_throws _); simpl; intros Hg'.
Qed.

Lemma open_ordered `{env : Env} (s : State) : ordered s → ordered (open s).1.
Proof.
  intros Ho. apply init_ordered in Ho.
  pose proof (init_returns_initCalled s) as Hi.
  unfold open. destruct (init s) as [s' []]; simpl in *; [|done].
  destruct (createDatabase_throws s'); simpl; apply ordered_call;
    try done; by auto.
Qed.

Lemma eachOption_ordered `{env : Env} (netOpts : list (Z * Z)) (s : State) :
  initCalled s = false → ordered s → ordered (eachOption netOpts s).1.
Proof.
  revert s. induction netOpts as [|[code val] rest IH]; intros s Hi Ho; [done|].
  simpl.
  assert (ordered (call (setNetworkOption code val) s)) as Ho'
    by (apply ordered_call; done).
  destruct (setNetworkOption_throws s); [done|]. by apply IH.
Qed.

Lemma step_ordered `{env : Env} (a : Api) (s : State) :
  ordered s → ordered (step a s).1.
Proof.
  intros Ho. destruct a; simpl; try by apply open_ordered.
  - done.
  - done.
  - unfold configNetwork. destruct (initCalled s) eqn:Hi; [done|].
    by apply eachOption_ordered.
  - by apply ordered_call.
Qed.

(** X16.  After any sequence of calls from the module's initial state the
    native calls made are in order: a database is created only on a network
    that [startNetwork] was called for before, and no network option is set
    once [startNetwork] was called. *)
Theorem native_calls_in_order `{env : Env} (l : list Api) :
  start_separates (calls (run l initial))
  ∧ (createDatabase ∈ calls (run l initial) →
     startNetwork ∈ calls (run l initial)).
Proof.
  assert (∀ s, ordered s → ordered (run l s)) as Hrun.
  { induction l as [|a l IH]; intros s Ho; [done|].
    simpl. by apply IH, step_ordered. }
  destruct (Hrun initial) as (Hg & Hsep & Hdb).
  { split; [done|]. split.
    - intros l1 l2 Heq. by destruct l1.
    - intros Hin. by apply not_elem_of_nil in Hin. }
  split; [done|]. intros Hin. apply Hdb in Hin.
  unfold guarded in Hg. rewrite Hin in Hg.
  destruct (decide (startNetwork ∈ calls (run l initial))) as [|Hno]; [done|].
  unfold started in Hg.
  destruct (filter _ _) as [|c cs] eqn:Hf; [done|].
  assert (c ∈ filter (λ c, c = startNetwork) (calls (run l initial))) as Hc
    by (rewrite Hf; by left).
  apply list_elem_of_filter in Hc as [-> Hc]. done.
Qed.

(** ** The encoders of lib/index.ts *)

Lemma byte_of_uint32 (u : Z) (k : Z) :
  0 ≤ k → Z.land (Z.shiftr u k) 0xFF = (u / 2 ^ k) mod 256.
Proof.
  intros Hk. change 0xFF with (Z.ones 8).
  by rewrite Z.land_ones, Z.shiftr_div_pow2 by lia.
Qed.

(** X17.  [encoders.int32BE] round trip: [pack] of a signed 32-bit integer
    returns four bytes from which [unpack] reads the integer back; of any
    other integer [pack] throws. *)
Theorem int32BE_round_trip (num : Z) :
  (- 2 ^ 31 ≤ num ≤ 2 ^ 31 - 1 →
   ∃ b, int32BE_pack num = Some b
     ∧ length b = 4%nat
     ∧ Forall (λ x, 0 ≤ x < 256) b
     ∧ int32BE_unpack b = Some num)
  ∧ (¬ (- 2 ^ 31 ≤ num ≤ 2 ^ 31 - 1) → int32BE_pack num = None).
Proof.
  unfold int32BE_pack, writeInt32BE, Buffer_alloc. simpl. split.
  - intros Hnum. case_decide as Hd; [|lia].
    eexists. split; [reflexivity|]. rewrite !byte_of_uint32 by lia.
    change 0xFF with (Z.ones 8). rewrite Z.land_ones by lia.
    unfold to_uint32.
    change (2 ^ 24) with 16777216. change (2 ^ 16) with 65536.
    change (2 ^ 8) with 256. change (2 ^ 0) with 1.
    change (2 ^ 32) with 4294967296.
    split; [done|]. split.
    + repeat (apply Forall_cons; split); try apply Forall_nil_2;
        Z.div_mod_to_equations; lia.
    + unfold int32BE_unpack, readInt32BE. simpl. f_equal.
      unfold to_int32. rewrite Z.shiftl_mul_pow2 by lia.
      change (2 ^ 24) with 16777216. change (2 ^ 16) with 65536.
      change (2 ^ 8) with 256. change (2 ^ 31) with 2147483648.
      change (2 ^ 32) with 4294967296.
      Z.div_mod_to_equations. lia.
  - intros Hnum. case_decide as Hd; [|done]. lia.
Qed.

Lemma int32BE_round_trip_witness :
  ∃ b, int32BE_pack (-2) = Some b
    ∧ length b = 4%nat
    ∧ Forall (λ x, 0 ≤ x < 256) b
    ∧ int32BE_unpack b = Some (-2).
Proof.
  apply (proj1 (int32BE_round_trip (-2))). lia.
Defined.

Example int32BE_pack_samples :
  int32BE_pack 1 = Some [0; 0; 0; 1]
  ∧ int32BE_pack (-2) = Some [255; 255; 255; 254]
  ∧ int32BE_pack (2 ^ 31) = None
  ∧ int32BE_unpack [1; 2; 3] = None.
Proof. repeat split. Qed.

(** ** The prototype of [Transaction] *)

(** X18.  [Transaction::Init] binds each name once, and binds every method
    but two: [AtomicOp] and [GetVersionStamp] are under no name, so that
    script code cannot call them on a transaction. *)
Theorem Transaction_Init_binds :
  NoDup (Transaction_Init.*1)
  ∧ (∀ name, ((name, FMethod AtomicOp) ∉ Transaction_Init)
             ∧ ((name, FMethod GetVersionStamp) ∉ Transaction_Init))
  ∧ (∀ m, m ≠ AtomicOp → m ≠ GetVersionStamp →
          ∃ name, (name, FMethod m) ∈ Transaction_Init).
Proof.
  split; [|split].
  - apply NoDup_ListNoDup. unfold Transaction_Init. simpl.
    repeat (constructor; [simpl; intuition discriminate|]). constructor.
  - intros name. split; intros Hin; apply list_elem_of_In in Hin;
      simpl in Hin; intuition discriminate.
  - intros m Ha Hv.
    destruct m; try done; eexists; apply list_elem_of_In; simpl;
      repeat first [left; reflexivity | right].
Qed.

Lemma Transaction_Init_binds_witness :
  ∃ name, (name, FMethod Set_) ∈ Transaction_Init.
Proof.
  apply (proj2 (proj2 Transaction_Init_binds) Set_); discriminate.
Defined.

(** ** Conflict ranges and a failed start *)

(** X19.  [addReadConflictRange] and [addWriteConflictRange] with a begin
    and an end that are strings or buffers, each of a number of bytes that
    an [int] can count, call
    [fdb_transaction_add_conflict_range] with pointers and lengths under
    which the bytes of the two keys lie, and with the type of the verb;
    whether the call's error code is thrown or not, the heap is left as it
    was before the call. *)
Theorem Transaction_AddConflictRange_passes_range `{host : Host} {N}
    `{client : FdbC N} (tr : FDBTransaction) (info : list JsValue)
    (type : FDBConflictRangeType) (h : heap) (n : N) (sb eb : list Z) :
  arg_bytes h (arg info 0) = Some sb →
  Z.of_nat (length sb) ≤ INT_MAX →
  arg_bytes h (arg info 1) = Some eb →
  Z.of_nat (length eb) ≤ INT_MAX →
  ∃ ps pe h2,
    h ⊆ h2
    ∧ load h2 ps (Z.of_nat (length sb)) = Some sb
    ∧ load h2 pe (Z.of_nat (length eb)) = Some eb
    ∧ let call := fdb_transaction_add_conflict_range tr
                    ps (Z.of_nat (length sb)) pe (Z.of_nat (length eb))
                    type h2 n in
      Transaction_AddConflictRange tr info type (h, n)
      = Some (if decide (call.1 ≠ 0)
              then Throw (FdbError_NewInstance call.1)
              else Normal JsUndefined, (h, call.2)).
Proof.
  intros Hs Hsmax He Hemax.
  destruct (StringParams_ctor_arg_bytes _ _ _ Hs Hsmax)
    as (start & h1 & Estart & Hsub1 & Hls & Hloads).
  destruct (StringParams_ctor_arg_bytes _ _ _
              (arg_bytes_mono _ _ _ _ Hsub1 He) Hemax)
    as (end_ & h2 & Eend & Hsub2 & Hle & Hloade).
  exists (str start), (str end_), h2.
  split; [by etrans|]. split; [by eapply load_mono|]. split; [done|].
  unfold Transaction_AddConflictRange, on_heap, native, mbind, M_bind. simpl.
  rewrite Estart. simpl. rewrite Eend. simpl. rewrite Hls, Hle.
  destruct (fdb_transaction_add_conflict_range _ _ _ _ _ _ _ _) as [e n'].
  simpl.
  rewrite (StringParams_dtor_undoes_ctor _ _ _ _ Eend). simpl.
  by rewrite (StringParams_dtor_undoes_ctor _ _ _ _ Estart).
Qed.

Lemma Transaction_AddConflictRange_passes_range_witness :
  ∃ ps pe h2,
    example_heap ⊆ h2
    ∧ load h2 ps (Z.of_nat 1) = Some [0x61]
    ∧ load h2 pe (Z.of_nat 2) = Some [0x6B; 0x31]
    ∧ Transaction_AddConflictRange (host := example_host)
        (client := example_client) 1%positive
        [JsString [0x61]; JsBuffer (1%positive, 0) 2]
        FDB_CONFLICT_RANGE_TYPE_READ (example_heap, 2017)
      = Some (Throw (FdbError_NewInstance 2017), (example_heap, 0)).
Proof.
  apply (@Transaction_AddConflictRange_passes_range example_host Z
           example_client 1%positive
           [JsString [0x61]; JsBuffer (1%positive, 0) 2]
           FDB_CONFLICT_RANGE_TYPE_READ example_heap 2017
           [0x61] [0x6B; 0x31]);
    first [reflexivity | unfold INT_MAX; simpl; lia].
Defined.

(** X20.  The guard flag is set before [startNetwork] is called.  When
    the first start throws, [open] throws with the flag set; a later
    [open], with an API version set, does not call [startNetwork] again
    and goes on to create the database. *)
Theorem open_after_failed_start `{env : Env} (s : State) (v : Z) :
  initCalled s = false →
  apiVersion_get s = Some v →
  startNetwork_throws (set_initCalled s) = true →
  open s = (call startNetwork (set_initCalled s), Throws)
  ∧ ∀ s', initCalled s' = true → is_Some (apiVersion_get s') →
          (open s').1 = call createDatabase s'.
Proof.
  intros Hi Hv Hthrow. split.
  - unfold open, init. by rewrite Hv, Hi, Hthrow.
  - intros s' Hi' [v' Hv']. unfold open, init. rewrite Hv', Hi'.
    by destruct (createDatabase_throws s').
Qed.

Lemma open_after_failed_start_witness :
  open (env := example_failing_env) initial
  = (call startNetwork (set_initCalled initial), Throws)
  ∧ ∀ s', initCalled s' = true →
          is_Some (apiVersion_get (Env := example_failing_env) s') →
          (open (env := example_failing_env) s').1 = call createDatabase s'.
Proof.
  apply (@open_after_failed_start example_failing_env initial 510);
    reflexivity.
Defined.
